(** * max.py: the catch game's simulation core

    A shallow embedding of [max.py]: the difficulty arithmetic of [main],
    the [Character] / [Player] / [Bonus] classes with their [update]
    methods, the keyboard handling of [Player.get_input] and one iteration
    of the [while not game_over] loop of [main].

    Python integers are unbounded, so they are [Z]; [//] and [%] with a
    positive right operand are [Z.div] and [Z.modulo] (both floor).
    Drawing and sound playback change nothing the game logic reads and are
    left out. *)

From stdpp Require Import gmap strings list fin_maps.
From Stdlib Require Import ZArith Lia Ascii.

Local Open Scope Z_scope.

(** ** Module-level constants *)

Definition SCREEN_WIDTH : Z := 800.
Definition SCREEN_HEIGHT : Z := 600.
Definition FRAME_RATE : Z := 30.
Definition OBJECTS_MAX : Z := 40.
Definition MISSES_ALLOWED : Z := 30.
Definition SPEED_MIN : Z := 6.
Definition SPEED_MAX : Z := 80.
Definition BUMP_FREQUENCY : Z := FRAME_RATE / 3.
Definition BUMP_HEIGHT : Z := 3.

(** One entry of the [BONUSES] catalog. *)
Record BonusInfo := mkBonusInfo {
  info_points : Z;
  info_speed : Z;
  info_sound : string
}.

(** The catalog, in the order the dict literal lists its keys. *)
Definition BONUSES : list (string * BonusInfo) :=
  [ ("box"%string,        mkBonusInfo 100 5  "coin");
    ("present"%string,    mkBonusInfo 150 15 "coin");
    ("boot"%string,       mkBonusInfo 50  7  "coin");
    ("pillow"%string,     mkBonusInfo 100 3  "coin");
    ("soccerball"%string, mkBonusInfo 50  7  "coin");
    ("thermos"%string,    mkBonusInfo 100 7  "coin") ].

(** [BONUSES[name]]; [None] is Python's [KeyError]. *)
Fixpoint catalog_lookup (name : string) (cat : list (string * BonusInfo))
  : option BonusInfo :=
  match cat with
  | [] => None
  | (k, v) :: rest => if String.eqb k name then Some v else catalog_lookup name rest
  end.

Definition BONUSES_get (name : string) : option BonusInfo :=
  catalog_lookup name BONUSES.

(** [list(BONUSES.keys())] *)
Definition BONUSES_keys : list string := map fst BONUSES.

(** ** Difficulty arithmetic of [main] *)

(** [misses_allowed = (player.score // 500) + MISSES_ALLOWED] *)
Definition misses_allowed (score : Z) : Z := (score / 500) + MISSES_ALLOWED.

(** [objects_max = (player.score // 2000) * 5 + 10], then capped by
    [if objects_max > OBJECTS_MAX: objects_max = OBJECTS_MAX]. *)
Definition objects_max (score : Z) : Z :=
  let objects_max := (score / 2000) * 5 + 10 in
  if objects_max >? OBJECTS_MAX then OBJECTS_MAX else objects_max.

(** ** Data model *)

(** [Player.direction] is ['left'] or ['right']; [Player.emote] is [''] or
    ['sad']. *)
Inductive Direction := dir_left | dir_right.
Inductive Emote := emote_none | emote_sad.

Definition Direction_str (d : Direction) : string :=
  match d with dir_left => "left" | dir_right => "right" end.
Definition Emote_str (e : Emote) : string :=
  match e with emote_none => "" | emote_sad => "sad" end.

(** The attributes [Character.__init__] sets.  [self.image] only feeds the
    drawing and [self.rect] keeps the size [(width, height)] of the first
    image and the centre [(x_pos, y_pos)] written by [update], so neither
    is stored. *)
Record Character := mkCharacter {
  kind : string;
  name : string;
  speed : Z;
  x_pos : Z;
  y_pos : Z;
  x_inc : Z;
  y_inc : Z;
  width : Z;
  height : Z
}.

(** The inner dict [{'hit': n, 'miss': m}] of [Player.bonuses]. *)
Record Tally := mkTally { hit : Z; miss : Z }.

Record Player := mkPlayer {
  p_char :> Character;
  direction : Direction;
  emote : Emote;
  y_orig : Z;
  score : Z;
  bump_count : Z;
  misses : Z;
  bonuses : gmap string Tally
}.

Record Bonus := mkBonus {
  b_char :> Character;
  rotation : Z;
  r_inc : Z;
  points : Z;
  sound : string
}.

(** ** The random source

    The outcome of every [random] call is an input of the model.  A call
    accepts the proposed outcome exactly when the library could return it;
    on an empty range or an empty sequence nothing is accepted, where
    Python raises. *)

Definition randint (a b v : Z) : option Z :=
  if (a <=? v) && (v <=? b) then Some v else None.

Definition choice (l : list string) (v : string) : option string :=
  if existsb (String.eqb v) l then Some v else None.

(** The outcomes of the five draws of [Bonus.__init__], in call order. *)
Record BonusDraws := mkBonusDraws {
  draw_name : string;
  draw_y_inc : Z;
  draw_x_pos : Z;
  draw_y_pos : Z;
  draw_r_inc : Z
}.

Section Game.

(** The image store: the pixel size [get_size()] of the image loaded for a
    name such as ["bonus/box"].  All assets are taken to load. *)
Variable IMAGES : string -> Z * Z.

(** The collision test handed to [pygame.sprite.spritecollide],
    [collide_circle_ratio(.7)]: a floating-point predicate of the two
    sprites' rectangles, kept abstract. *)
Variable collided : Player -> Bonus -> bool.

(** *** [Character] *)

Definition Character_init (kind name : string) (x_pos y_pos speed : Z) : Character :=
  let '(w, h) := IMAGES (kind ++ "/" ++ name)%string in
  {| kind := kind; name := name; speed := speed;
     x_pos := x_pos; y_pos := y_pos; x_inc := 0; y_inc := 0;
     width := w; height := h |}.

(** [Character.update]: advance by the velocity (then re-centre the
    rectangle and draw). *)
Definition Character_update (c : Character) : Character :=
  {| kind := kind c; name := name c; speed := speed c;
     x_pos := x_pos c + x_inc c; y_pos := y_pos c + y_inc c;
     x_inc := x_inc c; y_inc := y_inc c;
     width := width c; height := height c |}.

(** *** [Player] *)

(** [Player.__init__(name)]: [reset()] fixes the position, direction and
    emote before the image ['player/<name><emote>-<direction>'] is
    loaded. *)
Definition Player_init (nm : string) : Player :=
  let x := SCREEN_WIDTH / 2 in
  let y := SCREEN_HEIGHT * 2 / 3 in
  let d := dir_left in
  let e := emote_none in
  let c := Character_init "player"
             (nm ++ Emote_str e ++ "-" ++ Direction_str d)%string x y SPEED_MIN in
  {| p_char := c; direction := d; emote := e;
     y_orig := y_pos c; score := 0; bump_count := 0; misses := 0;
     bonuses := foldl (fun m k => <[k := mkTally 0 0]> m) ∅ BONUSES_keys |}.

(** [Player.lose] *)
Definition Player_lose (p : Player) : Player :=
  {| p_char := p_char p; direction := direction p; emote := emote_sad;
     y_orig := y_orig p; score := score p; bump_count := bump_count p;
     misses := misses p; bonuses := bonuses p |}.

(** The two position clamps at the head of [Player.update]. *)
Definition clamp_x (c : Character) : Z :=
  if x_pos c <? width c / 2 then width c / 2
  else if x_pos c >? SCREEN_WIDTH - width c / 2 then SCREEN_WIDTH - width c / 2
  else x_pos c.

Definition clamp_y (c : Character) : Z :=
  if y_pos c <? height c / 2 then height c / 2
  else if y_pos c >? SCREEN_HEIGHT - height c / 2 then SCREEN_HEIGHT - height c / 2
  else y_pos c.

(** The speed rule of [Player.update]; the upper clamp is [width // 2],
    [SPEED_MAX] being commented out in the source. *)
Definition Player_speed (score width : Z) : Z :=
  let speed := score / 1000 in
  if speed <? SPEED_MIN then SPEED_MIN
  else if speed >? width / 2 then width / 2
  else speed.

(** [Player.update]: clamp, bump animation, speed, then
    [super().update()]. *)
Definition Player_update (p : Player) : Player :=
  let x1 := clamp_x p in
  let y1 := clamp_y p in
  let '(bump1, y2) :=
    if bump_count p >? BUMP_FREQUENCY then (0, y1 + BUMP_HEIGHT)
    else if negb (x_inc p =? 0) then (bump_count p + 1, y_orig p)
    else (bump_count p, y1) in
  let speed1 := Player_speed (score p) (width p) in
  let c := {| kind := kind p; name := name p; speed := speed1;
              x_pos := x1; y_pos := y2; x_inc := x_inc p; y_inc := y_inc p;
              width := width p; height := height p |} in
  {| p_char := Character_update c; direction := direction p; emote := emote p;
     y_orig := y_orig p; score := score p; bump_count := bump1;
     misses := misses p; bonuses := bonuses p |}.

(** *** Keyboard input *)

Inductive Key := K_ESCAPE | K_p | K_LEFT | K_RIGHT | K_other.
Inductive Event := QUIT | KEYDOWN (key : Key) | KEYUP (key : Key) | OtherEvent.

Definition Character_set_x_inc (c : Character) (v : Z) : Character :=
  {| kind := kind c; name := name c; speed := speed c;
     x_pos := x_pos c; y_pos := y_pos c; x_inc := v; y_inc := y_inc c;
     width := width c; height := height c |}.

Definition Player_turn (p : Player) (d : Direction) (v : Z) : Player :=
  {| p_char := Character_set_x_inc p v; direction := d; emote := emote p;
     y_orig := y_orig p; score := score p; bump_count := bump_count p;
     misses := misses p; bonuses := bonuses p |}.

(** The body of the [for event in pygame.event.get()] loop; the state is
    the player and the local [game_over].  [pause_game()] blocks until the
    pause key comes again and changes no attribute. *)
Definition handle_event (st : Player * bool) (ev : Event) : Player * bool :=
  let '(p, game_over) := st in
  match ev with
  | QUIT => (p, true)
  | KEYDOWN K_ESCAPE => (p, true)
  | KEYDOWN K_p => (p, game_over)
  | KEYDOWN K_LEFT => (Player_turn p dir_left (- speed p), game_over)
  | KEYDOWN K_RIGHT => (Player_turn p dir_right (speed p), game_over)
  | KEYDOWN K_other => (p, game_over)
  | KEYUP k =>
      if (x_inc p <? 0) && (if k is K_LEFT then true else false)
      then (Player_turn p (direction p) 0, game_over)
      else if (x_inc p >? 0) && (if k is K_RIGHT then true else false)
      then (Player_turn p (direction p) 0, game_over)
      else (p, game_over)
  | OtherEvent => (p, game_over)
  end.

(** [Player.get_input] *)
Definition get_input (events : list Event) (p : Player) : Player * bool :=
  foldl handle_event (p, false) events.

(** *** [Bonus] *)

(** [Bonus.__init__(name, x_pos, y_pos)].  [not name] holds for [None] and
    for the empty string. *)
Definition Bonus_init (nm : option string) (x y : Z) (d : BonusDraws) : option Bonus :=
  nm1 ← match nm with
        | Some n => if String.eqb n "" then choice BONUSES_keys (draw_name d) else Some n
        | None => choice BONUSES_keys (draw_name d)
        end;
  info ← BONUSES_get nm1;
  let c := Character_init "bonus" nm1 x y (info_speed info) in
  yi ← randint 1 (speed c) (draw_y_inc d);
  xp ← randint (width c / 2) (SCREEN_WIDTH - width c / 2) (draw_x_pos d);
  yp ← randint (- SCREEN_HEIGHT) (- height c) (draw_y_pos d);
  ri ← randint (-5) 5 (draw_r_inc d);
  Some {| b_char := {| kind := kind c; name := name c; speed := speed c;
                       x_pos := xp; y_pos := yp; x_inc := x_inc c; y_inc := yi;
                       width := width c; height := height c |};
          rotation := 0; r_inc := ri;
          points := info_points info; sound := info_sound info |}.

(** [Bonus.update] *)
Definition Bonus_update (b : Bonus) : Bonus :=
  {| b_char := Character_update b;
     rotation := (rotation b + r_inc b) mod 360;
     r_inc := r_inc b; points := points b; sound := sound b |}.

(** *** One iteration of the loop of [main] *)

(** The loop state: [player], the sprite group [bonuses] in insertion
    order, and [game_over]. *)
Record Session := mkSession {
  s_player : Player;
  s_bonuses : list Bonus;
  s_game_over : bool
}.

(** What one frame receives from outside: the pending events and the
    outcomes of the random draws of a spawn. *)
Record FrameInput := mkFrameInput {
  events : list Event;
  draws : BonusDraws
}.

(** The state after a frame, with the frame's locals [missed] and
    [hits]. *)
Record FrameResult := mkFrameResult {
  f_session : Session;
  f_missed : list Bonus;
  f_hits : list Bonus
}.

(** [if len(bonuses) < objects_max: bonuses.add(Bonus())] *)
Definition spawn (objects_max : Z) (d : BonusDraws) (bs : list Bonus) : option (list Bonus) :=
  if Z.of_nat (length bs) <? objects_max
  then b ← Bonus_init None 0 0 d; Some (bs ++ [b])
  else Some bs.

(** [bonus.y_pos > SCREEN_HEIGHT + bonus.height] *)
Definition is_missed (b : Bonus) : bool := y_pos b >? SCREEN_HEIGHT + height b.

(** One pass of the body of [for bonus in missed]; the failure is the
    [KeyError] of [player.bonuses[bonus.name]]. *)
Definition miss_one (p : Player) (b : Bonus) : option Player :=
  t ← bonuses p !! name b;
  Some {| p_char := p_char p; direction := direction p; emote := emote p;
          y_orig := y_orig p; score := score p - points b;
          bump_count := bump_count p; misses := misses p + 1;
          bonuses := <[name b := mkTally (hit t) (miss t + 1)]> (bonuses p) |}.

(** One pass of the body of [for bonus in hits]. *)
Definition hit_one (p : Player) (b : Bonus) : option Player :=
  t ← bonuses p !! name b;
  Some {| p_char := p_char p; direction := direction p; emote := emote p;
          y_orig := y_orig p; score := score p + points b;
          bump_count := bump_count p; misses := misses p;
          bonuses := <[name b := mkTally (hit t + 1) (miss t)]> (bonuses p) |}.

Fixpoint for_each (body : Player -> Bonus -> option Player)
    (bs : list Bonus) (p : Player) : option Player :=
  match bs with
  | [] => Some p
  | b :: rest => p1 ← body p b; for_each body rest p1
  end.

Definition miss_pass := for_each miss_one.
Definition hit_pass := for_each hit_one.

(** [if player.misses >= misses_allowed: game_over = True; player.lose()] *)
Definition loss_check (misses_allowed : Z) (st : Player * bool) : Player * bool :=
  let '(p, game_over) := st in
  if misses p >=? misses_allowed then (Player_lose p, true) else (p, game_over).

(** The body of [while not game_over], statement by statement. *)
Definition frame (inp : FrameInput) (s : Session) : option FrameResult :=
  let '(p0, game_over0) := get_input (events inp) (s_player s) in
  let misses_allowed := misses_allowed (score p0) in
  let objects_max := objects_max (score p0) in
  bs1 ← spawn objects_max (draws inp) (s_bonuses s);
  let missed := List.filter is_missed bs1 in
  p1 ← miss_pass missed p0;
  let bs2 := List.filter (fun b => negb (is_missed b)) bs1 in
  let bs3 := map Bonus_update bs2 in
  let '(p2, game_over1) := loss_check misses_allowed (p1, game_over0) in
  let p3 := Player_update p2 in
  let hits := List.filter (collided p3) bs3 in
  let bs4 := List.filter (fun b => negb (collided p3 b)) bs3 in
  p4 ← hit_pass hits p3;
  Some {| f_session := {| s_player := p4; s_bonuses := bs4; s_game_over := game_over1 |};
          f_missed := missed; f_hits := hits |}.

(** The state [main] enters the loop with. *)
Definition main_init : Session :=
  {| s_player := Player_init "max"; s_bonuses := []; s_game_over := false |}.

(** The loop of [main] over the frames' inputs, with everything missed and
    everything caught along the way; it stops at [game_over], or at the
    end of the inputs given. *)
Fixpoint main_loop (inputs : list FrameInput) (s : Session)
  : option (Session * list Bonus * list Bonus) :=
  match inputs with
  | [] => Some (s, [], [])
  | inp :: rest =>
      if s_game_over s then Some (s, [], [])
      else
        r ← frame inp s;
        '(s1, ms, hs) ← main_loop rest (f_session r);
        Some (s1, f_missed r ++ ms, f_hits r ++ hs)
  end.

End Game.

Arguments frame IMAGES collided inp s : assert.
Arguments main_loop IMAGES collided inputs s : assert.
Arguments loss_check : simpl never.
Arguments Player_update : simpl never.
Arguments get_input : simpl never.
Arguments spawn : simpl never.

(** ** A concrete instance, for the examples

    Every player image is 100 x 120 pixels and every bonus image 40 x 40;
    the collision test is the circle test of [collide_circle_ratio(.7)] on
    integers: centres no further apart than 0.7 times the sum of the half
    diagonals. *)

Definition demo_images (n : string) : Z * Z :=
  if String.prefix "player" n then (100, 120) else (40, 40).

Definition demo_collided (p : Player) (b : Bonus) : bool :=
  let dx := x_pos p - x_pos b in
  let dy := y_pos p - y_pos b in
  let rp := Z.sqrt (width p * width p + height p * height p) in
  let rb := Z.sqrt (width b * width b + height b * height b) in
  400 * (dx * dx + dy * dy) <=? 49 * ((rp + rb) * (rp + rb)).

(** A player who touches nothing and a stream of boots that enter at the
    left edge, just above the screen, at full fall speed. *)
Definition boot_draws : BonusDraws :=
  {| draw_name := "boot"; draw_y_inc := 7; draw_x_pos := 20;
     draw_y_pos := -40; draw_r_inc := 5 |}.

Definition idle_frames (n : nat) : list FrameInput :=
  repeat {| events := []; draws := boot_draws |} n.

(** ** Vocabulary of the statements *)

(** Input handling and [Player.update] move the player and leave the
    score, the miss counter, the tallies and the emote alone. *)
Definition same_stats (p q : Player) : Prop :=
  score q = score p /\ misses q = misses p /\ bonuses q = bonuses p /\
  emote q = emote p /\ width q = width p /\ height q = height p.

Definition same_stats_but_emote (p q : Player) : Prop :=
  score q = score p /\ misses q = misses p /\ bonuses q = bonuses p /\
  p_char q = p_char p.

(** The total of the point values of a list of bonuses, and how many of
    them carry a given name. *)
Definition sum_points (bs : list Bonus) : Z := foldr (fun b acc => points b + acc) 0 bs.

Definition count_name (k : string) (bs : list Bonus) : Z :=
  Z.of_nat (length (List.filter (fun b : Bonus => String.eqb (name b) k) bs)).

(** The tally of a name, zero where the dict has no entry, and a sum over
    the catalog of a quantity of each name's entry and tally. *)
Definition tally (m : gmap string Tally) (k : string) : Tally :=
  default (mkTally 0 0) (m !! k).

Definition catalog_sum (f : BonusInfo -> Tally -> Z)
    (cat : list (string * BonusInfo)) (m : gmap string Tally) : Z :=
  foldr (fun e acc => f e.2 (tally m e.1) + acc) 0 cat.

(** Sum over the catalog of [points * (hit - miss)], and of [miss]. *)
Definition tallied_score (m : gmap string Tally) : Z :=
  catalog_sum (fun info t => info_points info * (hit t - miss t)) BONUSES m.

Definition tallied_misses (m : gmap string Tally) : Z :=
  catalog_sum (fun _ t => miss t) BONUSES m.

Definition tally_inv (p : Player) : Prop :=
  score p = tallied_score (bonuses p) /\ misses p = tallied_misses (bonuses p).

(** A bonus that carries the points the catalog gives its name. *)
Definition catalog_ok (b : Bonus) : Prop :=
  exists info, BONUSES_get (name b) = Some info /\ points b = info_points info.

(** Every catalog name has a tally. *)
Definition tallies_cover (p : Player) : Prop :=
  forall k info, BONUSES_get k = Some info -> is_Some (bonuses p !! k).

(** What holds of the loop state whenever the loop condition is read. *)
Definition session_inv (s : Session) : Prop :=
  tally_inv (s_player s) /\ tallies_cover (s_player s) /\
  Forall catalog_ok (s_bonuses s).

(** ** Worked inputs *)

Definition idle_input : FrameInput := {| events := []; draws := boot_draws |}.

(** The left arrow goes down in the first frame and stays down. *)
Definition left_frames (n : nat) : list FrameInput :=
  {| events := [KEYDOWN K_LEFT]; draws := boot_draws |} :: idle_frames n.

(** What a run of the loop ended with: [game_over], the miss counter, the
    score, how many bonuses were missed and how many caught. *)
Definition outcome (r : option (Session * list Bonus * list Bonus))
  : option (bool * Z * Z * nat * nat) :=
  '(s, ms, hs) ← r;
  Some (s_game_over s, misses (s_player s), score (s_player s), length ms, length hs).

Definition fast_player : Player :=
  {| p_char := {| kind := "player"; name := "max-left"; speed := 6;
                  x_pos := 400; y_pos := 400; x_inc := 0; y_inc := 0;
                  width := 200; height := 120 |};
     direction := dir_left; emote := emote_none; y_orig := 400;
     score := 90500; bump_count := 0; misses := 0; bonuses := ∅ |}.

Definition demo_bonus : Bonus :=
  {| b_char := {| kind := "bonus"; name := "boot"; speed := 7;
                  x_pos := 20; y_pos := -40; x_inc := 0; y_inc := 7;
                  width := 40; height := 40 |};
     rotation := 0; r_inc := 5; points := 50; sound := "coin" |}.

(** A player far below zero, with the tallies that give that score. *)
Definition sunk_session : Session :=
  {| s_player :=
       {| p_char := {| kind := "player"; name := "max-left"; speed := 6;
                       x_pos := 400; y_pos := 400; x_inc := 0; y_inc := 0;
                       width := 100; height := 120 |};
          direction := dir_left; emote := emote_none; y_orig := 400;
          score := -4050; bump_count := 0; misses := 27;
          bonuses := <["present" := mkTally 0 27]> (bonuses (Player_init demo_images "max")) |};
     s_bonuses := [];
     s_game_over := false |}.

(** A session one miss short of the allowance at score 0, with a boot
    already past the bottom edge and a box falling onto the player. *)
Definition brink_missed : Bonus :=
  {| b_char := {| kind := "bonus"; name := "boot"; speed := 7;
                  x_pos := 20; y_pos := 641; x_inc := 0; y_inc := 7;
                  width := 40; height := 40 |};
     rotation := 75; r_inc := 5; points := 50; sound := "coin" |}.

Definition brink_caught : Bonus :=
  {| b_char := {| kind := "bonus"; name := "box"; speed := 5;
                  x_pos := 400; y_pos := 395; x_inc := 0; y_inc := 5;
                  width := 40; height := 40 |};
     rotation := 10; r_inc := -2; points := 100; sound := "coin" |}.

Definition brink_session : Session :=
  {| s_player :=
       {| p_char := {| kind := "player"; name := "max-left"; speed := 6;
                       x_pos := 400; y_pos := 400; x_inc := 0; y_inc := 0;
                       width := 100; height := 120 |};
          direction := dir_left; emote := emote_none; y_orig := 400;
          score := 0; bump_count := 0; misses := 29;
          bonuses := <["boot" := mkTally 29 29]> (bonuses (Player_init demo_images "max")) |};
     s_bonuses := [brink_missed; brink_caught];
     s_game_over := false |}.

(** ** The asset stores: [ImageStore] and [SoundStore] *)

(** [os.path.join(a, b)] as [posixpath] computes it for two components. *)
Fixpoint ends_with_sep (s : string) : bool :=
  match s with
  | EmptyString => false
  | String c EmptyString => Ascii.eqb c "/"%char
  | String _ rest => ends_with_sep rest
  end.

Definition path_join (a b : string) : string :=
  if String.prefix "/" b then b
  else if String.eqb a "" || ends_with_sep a then (a ++ b)%string
  else (a ++ "/" ++ b)%string.

(** The attributes both store classes set in [__init__]. *)
Record AssetStore (A : Type) := mkAssetStore {
  _store : gmap string A;
  _path : string;
  _ext : string
}.
Arguments mkAssetStore {A} _ _ _.
Arguments _store {A} _.
Arguments _path {A} _.
Arguments _ext {A} _.

Section Stores.

(** The objects pygame hands back, and the loading call
    ([pygame.image.load(path).convert_alpha()], [pygame.mixer.Sound(path)]);
    [None] stands for the exception a missing or broken file raises. *)
Variable Asset : Type.
Variable load : string -> option Asset.

(** [ImageStore.__init__] and [SoundStore.__init__] *)
Definition Store_init (path ext : string) : AssetStore Asset :=
  {| _store := ∅; _path := path; _ext := ext |}.

(** [ImageStore.add] and [SoundStore.add]: what is returned ([None] when
    the load raised) and the store afterwards. *)
Definition Store_add (nm : string) (st : AssetStore Asset)
  : option Asset * AssetStore Asset :=
  let file_path := path_join (_path st) (nm ++ "." ++ _ext st)%string in
  match load file_path with
  | Some obj => (Some obj, {| _store := <[nm := obj]> (_store st);
                              _path := _path st; _ext := _ext st |})
  | None => (None, st)
  end.

(** [ImageStore.get] *)
Definition ImageStore_get (nm : string) (st : AssetStore Asset)
  : option Asset * AssetStore Asset :=
  match _store st !! nm with
  | Some image => (Some image, st)
  | None => Store_add nm st
  end.

(** [SoundStore.play]: the object whose [play()] is called ([None] when
    the load or the lookup raised) and the store afterwards. *)
Definition SoundStore_play (nm : string) (st : AssetStore Asset)
  : option Asset * AssetStore Asset :=
  let st1 := match _store st !! nm with
             | Some _ => st
             | None => (Store_add nm st).2
             end in
  (_store st1 !! nm, st1).

(** [for sound in SOUND_FILES: SOUNDS.add(sound)] at the head of [main];
    [None] when a load raised. *)
Fixpoint preload (names : list string) (st : AssetStore Asset)
  : option (AssetStore Asset) :=
  match names with
  | [] => Some st
  | nm :: rest =>
      match Store_add nm st with
      | (Some _, st1) => preload rest st1
      | (None, _) => None
      end
  end.

End Stores.

Arguments Store_init {Asset} path ext.
Arguments Store_add {Asset} load nm st.
Arguments ImageStore_get {Asset} load nm st.
Arguments SoundStore_play {Asset} load nm st.
Arguments preload {Asset} load names st.

Definition SOUND_FILES : list string :=
  ["coin"; "powerup"; "pause"; "break_block-mod"]%string.

(** ** Modal waits: [show_text], [wait_for_keypress], [pause_game],
    [end_game] *)

(** The [py_key] argument: ['any'] or a key constant.  ([K_other] stands
    for every key the program does not name.) *)
Inductive WaitKey := AnyKey | TheKey (k : Key).

Definition Key_eqb (a b : Key) : bool :=
  match a, b with
  | K_ESCAPE, K_ESCAPE | K_p, K_p | K_LEFT, K_LEFT | K_RIGHT, K_RIGHT
  | K_other, K_other => true
  | _, _ => false
  end.

(** [event.type == pygame.KEYDOWN and py_key in ('any', event.key)] *)
Definition ends_wait (py_key : WaitKey) (ev : Event) : bool :=
  match ev with
  | KEYDOWN k => match py_key with AnyKey => true | TheKey k0 => Key_eqb k0 k end
  | _ => false
  end.

(** The [for event in pygame.event.get()] loop of [wait_for_keypress],
    on the local [timer]. *)
Definition scan_events (py_key : WaitKey) (timer : Z) (evs : list Event) : Z :=
  foldl (fun t ev => if ends_wait py_key ev then 0 else t) timer evs.

(** [wait_for_keypress(py_key, timer)].  Each pass of the [while] waits a
    second and then reads the events that came in; [ticks] lists them pass
    by pass.  The result is the number of passes made before returning, or
    [None] if the loop is still waiting when [ticks] is used up. *)
Fixpoint wait_for_keypress (py_key : WaitKey) (timer : Z)
    (ticks : list (list Event)) : option nat :=
  if timer =? 0 then Some 0%nat
  else
    match ticks with
    | [] => None
    | evs :: rest =>
        let timer1 := if timer >? 0 then timer - 1 else timer in
        S <$> wait_for_keypress py_key (scan_events py_key timer1 evs) rest
    end.

(** The position [show_text] puts its text at. *)
Definition text_position (text : string) (size : Z) : Z * Z :=
  let half_size := (Z.of_nat (String.length text) / 2) * (size / 3) in
  (SCREEN_WIDTH / 2 - half_size, SCREEN_HEIGHT / 2).

(** [show_text(text, timer, size, color, py_key)]: where the text goes and
    how long the wait lasts. *)
Definition show_text (text : string) (timer size : Z) (py_key : WaitKey)
    (ticks : list (list Event)) : (Z * Z) * option nat :=
  (text_position text size, wait_for_keypress py_key timer ticks).

(** [pause_game()]: the sound played and the wait. *)
Definition pause_game {Asset} (load : string -> option Asset)
    (sounds : AssetStore Asset) (ticks : list (list Event))
  : (option Asset * AssetStore Asset) * option nat :=
  (SoundStore_play load "pause" sounds,
   (show_text "Paused" (-1) 48 (TheKey K_p) ticks).2).

(** [end_game()]: the wait of [show_text('Game Over!')]. *)
Definition end_game (ticks : list (list Event)) : option nat :=
  (show_text "Game Over!" (-1) 48 AnyKey ticks).2.

(** ** Vocabulary of the further statements *)

(** The two events that make [get_input] return [True]. *)
Definition is_quit (ev : Event) : bool :=
  match ev with
  | QUIT | KEYDOWN K_ESCAPE => true
  | _ => false
  end.

(** The player moves no faster than half its width, faces the way it
    moves and has its centre on the screen. *)
Definition motion_inv (p : Player) : Prop :=
  12 <= width p <= SCREEN_WIDTH /\
  SPEED_MIN <= speed p <= width p / 2 /\
  - (width p / 2) <= x_inc p <= width p / 2 /\
  (x_inc p < 0 -> direction p = dir_left) /\
  (x_inc p > 0 -> direction p = dir_right) /\
  0 <= x_pos p <= SCREEN_WIDTH.

(** The bump animation: the counter is within its cycle and the player
    stands at its original height or one bump below it. *)
Definition bump_inv (p : Player) : Prop :=
  y_inc p = 0 /\
  height p / 2 <= y_orig p /\
  y_orig p + BUMP_HEIGHT <= SCREEN_HEIGHT - height p / 2 /\
  ((0 <= bump_count p <= BUMP_FREQUENCY /\
    (y_pos p = y_orig p \/ y_pos p = y_orig p + BUMP_HEIGHT)) \/
   (bump_count p = BUMP_FREQUENCY + 1 /\ y_pos p = y_orig p)).

(** What an event can do to the player: nothing but set the horizontal
    velocity to plus or minus the speed or to zero, and turn the player. *)
Definition only_steers (p q : Player) : Prop :=
  same_stats p q /\
  kind q = kind p /\ name q = name p /\ speed q = speed p /\
  x_pos q = x_pos p /\ y_pos q = y_pos p /\ y_inc q = y_inc p /\
  y_orig q = y_orig p /\ bump_count q = bump_count p.

(** A player walking left from the middle of the screen. *)
Definition walking_player : Player :=
  {| p_char := {| kind := "player"; name := "max-left"; speed := 6;
                  x_pos := 400; y_pos := 400; x_inc := -6; y_inc := 0;
                  width := 100; height := 120 |};
     direction := dir_left; emote := emote_none; y_orig := 400;
     score := 0; bump_count := 0; misses := 0; bonuses := ∅ |}.

(** What holds of every bonus in the group between frames: it carries its
    catalog entry, falls straight down at between 1 and its speed, is
    within the horizontal margins, has its angle in range, and was not yet
    past the bottom edge before its last step. *)
Definition bonus_inv (b : Bonus) : Prop :=
  (exists info, BONUSES_get (name b) = Some info /\
                points b = info_points info /\ speed b = info_speed info /\
                sound b = info_sound info) /\
  x_inc b = 0 /\ 1 <= y_inc b <= speed b /\
  width b / 2 <= x_pos b <= SCREEN_WIDTH - width b / 2 /\
  0 <= rotation b < 360 /\ -5 <= r_inc b <= 5 /\
  - SCREEN_HEIGHT <= y_pos b - y_inc b <= SCREEN_HEIGHT + height b.

(** Bonus images too wide for the screen. *)
Definition wide_images (n : string) : Z * Z := (900, 40).

(** No event of the batch ends the wait. *)
Definition quiet (py_key : WaitKey) (evs : list Event) : Prop :=
  existsb (ends_wait py_key) evs = false.

(** A file system for the examples: every file loads, to the length of
    its path, but [sounds/missing.wav]. *)
Definition demo_load (path : string) : option nat :=
  if String.eqb path "sounds/missing.wav" then None else Some (String.length path).

Definition no_load (path : string) : option nat := None.

Definition demo_sounds : AssetStore nat := Store_init "sounds" "wav".

(** * Properties *)

(** ** Difficulty arithmetic *)

Ltac floor_arith := unfold misses_allowed, objects_max, MISSES_ALLOWED, OBJECTS_MAX in *;
  repeat match goal with
         | |- context [?a >? ?b] => destruct (Z.gtb_spec a b)
         | H : context [?a >? ?b] |- _ => destruct (Z.gtb_spec a b)
         end;
  Z.div_mod_to_equations; lia.

Lemma misses_allowed_mono (s1 s2 : Z) :
  s1 <= s2 -> misses_allowed s1 <= misses_allowed s2.
Proof. intros H. floor_arith. Qed.

Lemma objects_max_min (s : Z) :
  objects_max s = Z.min OBJECTS_MAX (10 + 5 * (s / 2000)).
Proof. floor_arith. Qed.

Lemma objects_max_mono (s1 s2 : Z) :
  s1 <= s2 -> objects_max s1 <= objects_max s2.
Proof. intros H. floor_arith. Qed.

Lemma objects_max_le_cap (s : Z) : objects_max s <= OBJECTS_MAX.
Proof. floor_arith. Qed.

Lemma objects_max_same_step (s1 s2 : Z) :
  s1 / 2000 = s2 / 2000 -> objects_max s1 = objects_max s2.
Proof. unfold objects_max. intros ->. reflexivity. Qed.

(** C4: [misses_allowed s] is [MISSES_ALLOWED] plus the floor of [s / 500]
    (the floor being the one integer [q] with [500 q <= s < 500 q + 500]),
    it never decreases as a non-negative score grows, and at score 0 it is
    [MISSES_ALLOWED]. *)
Theorem misses_allowed_floor_monotone :
  (forall s, misses_allowed s = MISSES_ALLOWED + s / 500) /\
  (forall s, let q := misses_allowed s - MISSES_ALLOWED in
             500 * q <= s < 500 * q + 500) /\
  (forall s1 s2, 0 <= s1 -> s1 <= s2 -> misses_allowed s1 <= misses_allowed s2) /\
  misses_allowed 0 = MISSES_ALLOWED.
Proof.
  split; [|split; [|split]].
  - intros s. unfold misses_allowed. lia.
  - intros s q. subst q. floor_arith.
  - intros s1 s2 _ H. by apply misses_allowed_mono.
  - reflexivity.
Qed.

Lemma misses_allowed_floor_monotone_witness :
  0 <= 499 /\ 499 <= 500 /\ misses_allowed 499 <= misses_allowed 500.
Proof.
  split; [lia | split; [lia |]].
  destruct misses_allowed_floor_monotone as (_ & _ & Hmono & _).
  apply Hmono; lia.
Defined.

(** C5: [objects_max s] is the smaller of the cap and ten plus five times
    the floor of [s / 2000]; it never decreases as the score grows, never
    exceeds [OBJECTS_MAX] = 40, and takes the same value at two scores
    unless a multiple of 2000 lies between them. *)
Theorem objects_max_capped_steps :
  (forall s, objects_max s = Z.min OBJECTS_MAX (10 + 5 * (s / 2000))) /\
  (forall s, 2000 * (s / 2000) <= s < 2000 * (s / 2000) + 2000) /\
  (forall s1 s2, s1 <= s2 -> objects_max s1 <= objects_max s2) /\
  (forall s, objects_max s <= OBJECTS_MAX) /\
  OBJECTS_MAX = 40 /\
  (forall s1 s2, s1 <= s2 ->
     (forall k, ~ (s1 < 2000 * k <= s2)) -> objects_max s1 = objects_max s2).
Proof.
  repeat split.
  - apply objects_max_min.
  - Z.div_mod_to_equations; lia.
  - Z.div_mod_to_equations; lia.
  - apply objects_max_mono.
  - apply objects_max_le_cap.
  - intros s1 s2 Hle Hno. apply objects_max_same_step.
    specialize (Hno (s2 / 2000)).
    Z.div_mod_to_equations; lia.
Qed.

Lemma objects_max_capped_steps_witness :
  1999 <= 2000 /\ objects_max 1999 <= objects_max 2000 /\
  (forall k, ~ (2000 < 2000 * k <= 3999)) /\
  objects_max 2000 = objects_max 3999.
Proof.
  destruct objects_max_capped_steps as (_ & _ & Hmono & _ & _ & Hstep).
  split; [lia | split; [apply Hmono; lia | split]].
  - intros k. lia.
  - apply Hstep; [lia | intros k; lia].
Defined.

(** ** [Player.update] *)

Ltac player_update_cases p :=
  unfold Player_update;
  destruct (bump_count p >? BUMP_FREQUENCY); [| destruct (negb (x_inc p =? 0))].

Lemma Player_update_speed (p : Player) :
  speed (Player_update p) = Player_speed (score p) (width p).
Proof. by player_update_cases p. Qed.

Lemma Player_update_x_pos (p : Player) :
  x_pos (Player_update p) = clamp_x p + x_inc p.
Proof. by player_update_cases p. Qed.

Lemma Player_update_score (p : Player) :
  score (Player_update p) = score p /\ misses (Player_update p) = misses p /\
  bonuses (Player_update p) = bonuses p /\ emote (Player_update p) = emote p /\
  width (Player_update p) = width p /\ x_inc (Player_update p) = x_inc p.
Proof. by player_update_cases p. Qed.

(** C6: after [Player.update] the speed is [score // 1000] raised to
    [SPEED_MIN] when below it, otherwise lowered to [width // 2] when above
    it; with [SPEED_MIN <= width // 2] that is the clamp of [score // 1000]
    to the interval between the two.  [SPEED_MAX] plays no part: a wide
    enough sprite and a high enough score give a speed above it. *)
Theorem player_speed_clamped_by_half_width (p : Player) :
  let v := score p / 1000 in
  let half := width p / 2 in
  let sp := speed (Player_update p) in
  (v < SPEED_MIN -> sp = SPEED_MIN) /\
  (SPEED_MIN <= v -> v <= half -> sp = v) /\
  (SPEED_MIN <= v -> half < v -> sp = half) /\
  (SPEED_MIN <= half -> sp = Z.max SPEED_MIN (Z.min v half)) /\
  (SPEED_MAX < v -> v <= half -> sp = v /\ SPEED_MAX < sp).
Proof.
  intros v half sp. subst sp. rewrite Player_update_speed.
  unfold Player_speed. fold v half. unfold SPEED_MIN, SPEED_MAX.
  destruct (Z.ltb_spec v 6), (Z.gtb_spec v half); lia.
Qed.

Lemma player_speed_clamped_by_half_width_witness :
  SPEED_MAX < score fast_player / 1000 /\
  score fast_player / 1000 <= width fast_player / 2 /\
  speed (Player_update fast_player) = 90 /\
  SPEED_MIN <= width fast_player / 2 /\
  speed (Player_update fast_player)
  = Z.max SPEED_MIN (Z.min (score fast_player / 1000) (width fast_player / 2)).
Proof.
  destruct (player_speed_clamped_by_half_width fast_player) as (_ & _ & _ & Hc & Hm).
  split; [reflexivity | split; [discriminate | split; [| split]]].
  - apply Hm; [reflexivity | discriminate].
  - discriminate.
  - apply Hc. discriminate.
Defined.

(** ** [Bonus] *)

Lemma Bonus_update_rotation (b : Bonus) :
  0 <= rotation (Bonus_update b) < 360.
Proof. simpl. apply Z.mod_pos_bound. lia. Qed.

Lemma Bonus_updates_fixed (n : nat) (b : Bonus) :
  let bn := Nat.iter n Bonus_update b in
  r_inc bn = r_inc b /\ y_inc bn = y_inc b /\ speed bn = speed b /\
  points bn = points b /\ name bn = name b /\
  width bn = width b /\ height bn = height b.
Proof.
  induction n as [|n IH]; simpl; [done |].
  simpl in IH. destruct IH as (-> & -> & -> & -> & -> & -> & ->). done.
Qed.

Lemma randint_range (a b v r : Z) : randint a b v = Some r -> r = v /\ a <= v <= b.
Proof.
  unfold randint. destruct (Z.leb_spec a v), (Z.leb_spec v b); simpl; intros [=]; lia.
Qed.

Lemma randint_accepts (a b v : Z) : a <= v <= b -> randint a b v = Some v.
Proof.
  intros H. unfold randint.
  destruct (Z.leb_spec a v), (Z.leb_spec v b); simpl; [done | lia ..].
Qed.

Lemma Bonus_init_Some IMAGES nm x y d (b : Bonus) :
  Bonus_init IMAGES nm x y d = Some b ->
  exists info, BONUSES_get (name b) = Some info /\
    points b = info_points info /\ speed b = info_speed info /\
    sound b = info_sound info /\
    (width b, height b) = IMAGES ("bonus/" ++ name b)%string /\
    rotation b = 0 /\ -5 <= r_inc b <= 5 /\
    x_inc b = 0 /\ 1 <= y_inc b <= speed b /\
    width b / 2 <= x_pos b <= SCREEN_WIDTH - width b / 2 /\
    - SCREEN_HEIGHT <= y_pos b <= - height b.
Proof.
  unfold Bonus_init. intros H.
  destruct (match nm with
            | Some n => if String.eqb n "" then choice BONUSES_keys (draw_name d) else Some n
            | None => choice BONUSES_keys (draw_name d)
            end) as [nm1|]; [simpl in H | done].
  destruct (BONUSES_get nm1) as [info|] eqn:Hinfo; [simpl in H | done].
  unfold Character_init in H.
  destruct (IMAGES ("bonus" ++ "/" ++ nm1)%string) as [w h] eqn:Himg. simpl in H.
  destruct (randint 1 _ _) as [yi|] eqn:Hyi; [simpl in H | done].
  destruct (randint (w / 2) _ _) as [xp|] eqn:Hxp; [simpl in H | done].
  destruct (randint (- SCREEN_HEIGHT) _ _) as [yp|] eqn:Hyp; [simpl in H | done].
  destruct (randint (-5) _ _) as [ri|] eqn:Hri; [simpl in H | done].
  injection H as <-. simpl.
  apply randint_range in Hyi, Hxp, Hyp, Hri.
  exists info. rewrite <- Himg. repeat split; try done; lia.
Qed.

(** C8: a bonus made by [Bonus.__init__] and then updated any number of
    times has its rotation in [0, 360), while its rotation increment stays
    the value drawn at spawn, which lies in [-5, 5]. *)
Theorem bonus_rotation_in_range IMAGES nm x y d (b : Bonus) (n : nat) :
  Bonus_init IMAGES nm x y d = Some b ->
  let bn := Nat.iter n Bonus_update b in
  0 <= rotation bn < 360 /\ r_inc bn = r_inc b /\ -5 <= r_inc b <= 5.
Proof.
  intros Hb bn.
  destruct (Bonus_init_Some _ _ _ _ _ _ Hb) as (info & _ & _ & _ & _ & _ & Hrot & Hri & _).
  split; [| split; [apply (Bonus_updates_fixed n b) | exact Hri]].
  subst bn. destruct n as [|n]; simpl.
  - rewrite Hrot. lia.
  - apply Z.mod_pos_bound. lia.
Qed.

Lemma bonus_rotation_in_range_witness :
  Bonus_init demo_images None 0 0 boot_draws = Some demo_bonus /\
  0 <= rotation (Nat.iter 100 Bonus_update demo_bonus) < 360 /\
  r_inc (Nat.iter 100 Bonus_update demo_bonus) = 5.
Proof.
  assert (H : Bonus_init demo_images None 0 0 boot_draws = Some demo_bonus)
    by reflexivity.
  split; [exact H |].
  destruct (bonus_rotation_in_range _ _ _ _ _ _ 100 H) as (Hr & Hi & _).
  split; [exact Hr | exact Hi].
Defined.

(** ** The passes of a frame *)

Lemma same_stats_refl p : same_stats p p.
Proof. by repeat split. Qed.

Lemma same_stats_trans p q r : same_stats p q -> same_stats q r -> same_stats p r.
Proof. unfold same_stats. intros (-> & -> & -> & -> & -> & ->). done. Qed.

Lemma handle_event_stats p g ev : same_stats p (handle_event (p, g) ev).1.
Proof.
  destruct ev as [|[]|k|]; simpl; try apply same_stats_refl; try by repeat split.
  destruct (x_inc p <? 0), k; simpl; try apply same_stats_refl; try by repeat split.
  all: destruct (x_inc p >? 0); simpl; try apply same_stats_refl; by repeat split.
Qed.

Lemma get_input_stats evs p : same_stats p (get_input evs p).1.
Proof.
  unfold get_input. generalize false as g. revert p.
  induction evs as [|ev evs IH]; intros p g; [apply same_stats_refl |].
  cbn [foldl].
  pose proof (handle_event_stats p g ev) as H.
  destruct (handle_event (p, g) ev) as [p1 g1].
  eapply same_stats_trans; [exact H | apply IH].
Qed.

Lemma Player_update_stats p : same_stats p (Player_update p).
Proof. by player_update_cases p. Qed.

Lemma sum_points_app bs1 bs2 : sum_points (bs1 ++ bs2) = sum_points bs1 + sum_points bs2.
Proof. induction bs1 as [|b bs1 IH]; simpl; lia. Qed.

Lemma count_name_cons k (b : Bonus) bs :
  count_name k (b :: bs) = (if String.eqb (name b) k then 1 else 0) + count_name k bs.
Proof. unfold count_name. simpl. destruct (String.eqb (name b) k); simpl; lia. Qed.

Lemma count_name_nonneg k bs : 0 <= count_name k bs.
Proof. unfold count_name. lia. Qed.

(** What the miss pass does to the player. *)
Lemma miss_pass_effect bs : forall p p',
  miss_pass bs p = Some p' ->
  score p' = score p - sum_points bs /\
  misses p' = misses p + Z.of_nat (length bs) /\
  p_char p' = p_char p /\ emote p' = emote p /\ direction p' = direction p /\
  y_orig p' = y_orig p /\ bump_count p' = bump_count p /\
  forall k, bonuses p' !! k
            = (fun t => mkTally (hit t) (miss t + count_name k bs)) <$> bonuses p !! k.
Proof.
  induction bs as [|b bs IH]; intros p p' H.
  - injection H as <-. repeat split; simpl; try lia.
    intros k. unfold count_name. simpl. destruct (bonuses p !! k) as [[]|]; simpl; [f_equal; f_equal; lia | done].
  - change (miss_pass (b :: bs) p) with (miss_one p b ≫= miss_pass bs) in H.
    unfold miss_one in H.
    destruct (bonuses p !! name b) as [t|] eqn:Ht; [simpl in H | done].
    apply IH in H. simpl in H.
    destruct H as (Hs & Hm & Hc & He & Hd & Hy & Hb & Hk).
    repeat split; try done; simpl; try lia.
    intros k. rewrite Hk, count_name_cons.
    destruct (String.eqb_spec (name b) k) as [<-|Hne].
    + rewrite lookup_insert_eq, Ht. simpl. f_equal. f_equal. lia.
    + rewrite lookup_insert_ne by done.
      destruct (bonuses p !! k) as [[]|]; simpl; [f_equal; f_equal; lia | done].
Qed.

(** What the hit pass does to the player. *)
Lemma hit_pass_effect bs : forall p p',
  hit_pass bs p = Some p' ->
  score p' = score p + sum_points bs /\
  misses p' = misses p /\
  p_char p' = p_char p /\ emote p' = emote p /\ direction p' = direction p /\
  y_orig p' = y_orig p /\ bump_count p' = bump_count p /\
  forall k, bonuses p' !! k
            = (fun t => mkTally (hit t + count_name k bs) (miss t)) <$> bonuses p !! k.
Proof.
  induction bs as [|b bs IH]; intros p p' H.
  - injection H as <-. repeat split; simpl; try lia.
    intros k. unfold count_name. simpl. destruct (bonuses p !! k) as [[]|]; simpl; [f_equal; f_equal; lia | done].
  - change (hit_pass (b :: bs) p) with (hit_one p b ≫= hit_pass bs) in H.
    unfold hit_one in H.
    destruct (bonuses p !! name b) as [t|] eqn:Ht; [simpl in H | done].
    apply IH in H. simpl in H.
    destruct H as (Hs & Hm & Hc & He & Hd & Hy & Hb & Hk).
    repeat split; try done; simpl; try lia.
    intros k. rewrite Hk, count_name_cons.
    destruct (String.eqb_spec (name b) k) as [<-|Hne].
    + rewrite lookup_insert_eq, Ht. simpl. f_equal. f_equal. lia.
    + rewrite lookup_insert_ne by done.
      destruct (bonuses p !! k) as [[]|]; simpl; [f_equal; f_equal; lia | done].
Qed.

Lemma filter_split_length {A} (f : A -> bool) (l : list A) :
  (length (List.filter f l) + length (List.filter (fun x => negb (f x)) l))%nat = length l.
Proof. induction l as [|x l IH]; simpl; [done |]. destruct (f x); simpl; lia. Qed.

(** The spawner adds nothing or one bonus at the end of the group. *)
Lemma spawn_Some IMAGES om d bs bs1 :
  spawn IMAGES om d bs = Some bs1 ->
  (Z.of_nat (length bs) < om /\
   exists b, Bonus_init IMAGES None 0 0 d = Some b /\ bs1 = bs ++ [b]) \/
  (~ Z.of_nat (length bs) < om /\ bs1 = bs).
Proof.
  unfold spawn. destruct (Z.ltb_spec (Z.of_nat (length bs)) om) as [Hlt|Hge].
  - destruct (Bonus_init IMAGES None 0 0 d) as [b|]; [| done].
    intros [= <-]. left. eauto.
  - intros [= <-]. right. split; [lia | done].
Qed.

Section Frame.

Variable IMAGES : string -> Z * Z.
Variable collided : Player -> Bonus -> bool.

(** A frame that completes, read back statement by statement. *)
Lemma frame_Some inp s r :
  frame IMAGES collided inp s = Some r ->
  let p0 := (get_input (events inp) (s_player s)).1 in
  let quit := (get_input (events inp) (s_player s)).2 in
  exists bs1 p1,
    spawn IMAGES (objects_max (score p0)) (draws inp) (s_bonuses s) = Some bs1 /\
    f_missed r = List.filter is_missed bs1 /\
    miss_pass (f_missed r) p0 = Some p1 /\
    let st := loss_check (misses_allowed (score p0)) (p1, quit) in
    let p3 := Player_update st.1 in
    let bs3 := map Bonus_update (List.filter (fun b => negb (is_missed b)) bs1) in
    f_hits r = List.filter (collided p3) bs3 /\
    s_bonuses (f_session r) = List.filter (fun b => negb (collided p3 b)) bs3 /\
    hit_pass (f_hits r) p3 = Some (s_player (f_session r)) /\
    s_game_over (f_session r) = st.2.
Proof.
  intros H. cbv zeta. unfold frame in H.
  destruct (get_input (events inp) (s_player s)) as [p0 quit]. simpl.
  destruct (spawn IMAGES _ _ _) as [bs1|]; [simpl in H | done].
  destruct (miss_pass _ p0) as [p1|] eqn:Hmiss; [simpl in H | done].
  destruct (loss_check _ (p1, quit)) as [p2 over] eqn:Hloss.
  destruct (hit_pass _ _) as [p4|] eqn:Hhit; [simpl in H | done].
  injection H as <-. simpl.
  exists bs1, p1. rewrite Hloss. by repeat split.
Qed.

(** The loss check fires exactly when the miss counter has reached the
    allowance; it leaves everything but the emote alone. *)
Lemma loss_check_spec ma p g :
  (loss_check ma (p, g)).2 = g || (misses p >=? ma) /\
  same_stats_but_emote p (loss_check ma (p, g)).1 /\
  (ma <= misses p -> emote (loss_check ma (p, g)).1 = emote_sad).
Proof.
  unfold loss_check, same_stats_but_emote.
  destruct (Z.geb_spec (misses p) ma); simpl.
  - rewrite orb_true_r. repeat split; done.
  - rewrite orb_false_r. repeat split; try done. lia.
Qed.

(** The player's statistics after a frame, in terms of the frame's
    [missed] and [hits]. *)
Lemma frame_effect inp s r :
  frame IMAGES collided inp s = Some r ->
  let p := s_player s in
  let p' := s_player (f_session r) in
  score p' = score p - sum_points (f_missed r) + sum_points (f_hits r) /\
  misses p' = misses p + Z.of_nat (length (f_missed r)) /\
  s_game_over (f_session r)
  = (get_input (events inp) p).2 || (misses p' >=? misses_allowed (score p)) /\
  (misses_allowed (score p) <= misses p' -> emote p' = emote_sad) /\
  forall k, bonuses p' !! k
            = (fun t => mkTally (hit t + count_name k (f_hits r))
                                (miss t + count_name k (f_missed r)))
              <$> bonuses p !! k.
Proof.
  intros H. cbv zeta.
  destruct (frame_Some _ _ _ H) as (bs1 & p1 & _ & _ & Hmiss & _ & _ & Hhit & Hover).
  destruct (get_input_stats (events inp) (s_player s)) as (Hs0 & Hm0 & Hb0 & _).
  set (p0 := (get_input (events inp) (s_player s)).1) in *.
  set (quit := (get_input (events inp) (s_player s)).2) in *.
  destruct (miss_pass_effect _ _ _ Hmiss) as (Hs1 & Hm1 & _ & _ & _ & _ & _ & Hk1).
  destruct (loss_check_spec (misses_allowed (score p0)) p1 quit)
    as (Hg & (Hs2 & Hm2 & Hb2 & _) & He2).
  set (p2 := (loss_check (misses_allowed (score p0)) (p1, quit)).1) in *.
  destruct (Player_update_stats p2) as (Hs3 & Hm3 & Hb3 & He3 & _).
  destruct (hit_pass_effect _ _ _ Hhit) as (Hs4 & Hm4 & _ & He4 & _ & _ & _ & Hk4).
  rewrite Hover, Hg, <- Hs0.
  replace (misses (s_player (f_session r))) with (misses p1) by congruence.
  repeat split.
  - lia.
  - lia.
  - intros Hle. rewrite He4, He3. by apply He2.
  - intros k. rewrite Hk4, Hb3, Hb2, Hk1, Hb0.
    destruct (bonuses (s_player s) !! k) as [[]|]; done.
Qed.

(** The bonuses a frame ends with, misses and catches are those it began
    with plus what the spawner made. *)
Lemma frame_conservation inp s r bs1 :
  frame IMAGES collided inp s = Some r ->
  spawn IMAGES (objects_max (score (s_player s))) (draws inp) (s_bonuses s) = Some bs1 ->
  (length (s_bonuses (f_session r)) + length (f_missed r) + length (f_hits r))%nat
  = length bs1.
Proof.
  intros H Hsp.
  destruct (frame_Some _ _ _ H) as (bs1' & p1 & Hsp' & Hmissed & _ & Hhits & Hrest & _).
  destruct (get_input_stats (events inp) (s_player s)) as (Hs0 & _).
  rewrite Hs0, Hsp in Hsp'. injection Hsp' as <-.
  rewrite Hrest, Hhits, Hmissed.
  pose proof (filter_split_length is_missed bs1) as H1.
  set (p3 := Player_update _).
  pose proof (filter_split_length (collided p3)
                (map Bonus_update (List.filter (fun b => negb (is_missed b)) bs1))) as H2.
  rewrite length_map in H2. lia.
Qed.

(** C7: in a frame the spawner adds [created] to the group, which is one
    bonus when the group holds fewer than [objects_max(score)] and nothing
    otherwise, however far below the cap the group is; the bonuses the
    frame ends with, misses and catches are the old ones and [created]. *)
Theorem spawner_one_per_frame inp s r :
  frame IMAGES collided inp s = Some r ->
  let before := s_bonuses s in
  let cap := objects_max (score (s_player s)) in
  exists created,
    spawn IMAGES cap (draws inp) before = Some (before ++ created) /\
    length created = (if Z.of_nat (length before) <? cap then 1%nat else 0%nat) /\
    (length (s_bonuses (f_session r)) + length (f_missed r) + length (f_hits r))%nat
    = (length before + length created)%nat.
Proof.
  intros H before cap.
  destruct (frame_Some _ _ _ H) as (bs1 & _ & Hsp & _).
  destruct (get_input_stats (events inp) (s_player s)) as (Hs0 & _).
  rewrite Hs0 in Hsp. fold before cap in Hsp.
  pose proof (frame_conservation _ _ _ _ H Hsp) as Hlen.
  destruct (spawn_Some _ _ _ _ _ Hsp) as [(Hlt & b & _ & ->) | (Hge & ->)].
  - exists [b]. split; [done | split].
    + destruct (Z.ltb_spec (Z.of_nat (length before)) cap); [done | lia].
    + by rewrite length_app in Hlen.
  - exists []. rewrite app_nil_r. split; [done | split].
    + destruct (Z.ltb_spec (Z.of_nat (length before)) cap); [lia | done].
    + simpl. lia.
Qed.

(** C10: a negative score puts [misses_allowed] below [MISSES_ALLOWED] (at
    -100 it is one less), and a score of -4000 or less puts [objects_max]
    at or below 0, so that the spawner leaves the group as it is and a
    frame creates no bonus. *)
Theorem negative_score_shrinks_limits :
  (forall sc, sc < 0 -> misses_allowed sc < MISSES_ALLOWED) /\
  misses_allowed (-100) = MISSES_ALLOWED - 1 /\
  (forall sc, sc <= -4000 -> objects_max sc <= 0) /\
  (forall sc d bs, sc <= -4000 -> spawn IMAGES (objects_max sc) d bs = Some bs) /\
  (forall inp s r, score (s_player s) <= -4000 ->
     frame IMAGES collided inp s = Some r ->
     (length (s_bonuses (f_session r)) + length (f_missed r) + length (f_hits r))%nat
     = length (s_bonuses s)).
Proof.
  assert (Hom : forall sc, sc <= -4000 -> objects_max sc <= 0)
    by (intros sc H; floor_arith).
  assert (Hsp : forall sc d bs, sc <= -4000 ->
                 spawn IMAGES (objects_max sc) d bs = Some bs).
  { intros sc d bs H. unfold spawn. specialize (Hom sc H).
    destruct (Z.ltb_spec (Z.of_nat (length bs)) (objects_max sc)); [lia | done]. }
  split; [| split; [| split; [| split]]]; try done.
  - intros sc H. floor_arith.
  - intros inp s r Hsc H. eapply frame_conservation; [exact H | by apply Hsp].
Qed.

(** A pass completes exactly when every bonus it handles has a tally. *)
Lemma miss_pass_lookup bs : forall p p',
  miss_pass bs p = Some p' -> Forall (fun b : Bonus => is_Some (bonuses p !! name b)) bs.
Proof.
  induction bs as [|b bs IH]; intros p p' H; [constructor |].
  change (miss_pass (b :: bs) p) with (miss_one p b ≫= miss_pass bs) in H.
  unfold miss_one in H.
  destruct (bonuses p !! name b) as [t|] eqn:Ht; [simpl in H | done].
  constructor; [by rewrite Ht |].
  apply IH in H. simpl in H. eapply Forall_impl; [exact H |].
  intros x Hx. simpl in Hx. rewrite lookup_insert in Hx.
  destruct (decide (name b = name x)) as [<-|]; [by rewrite Ht | done].
Qed.

Lemma hit_pass_lookup bs : forall p p',
  hit_pass bs p = Some p' -> Forall (fun b : Bonus => is_Some (bonuses p !! name b)) bs.
Proof.
  induction bs as [|b bs IH]; intros p p' H; [constructor |].
  change (hit_pass (b :: bs) p) with (hit_one p b ≫= hit_pass bs) in H.
  unfold hit_one in H.
  destruct (bonuses p !! name b) as [t|] eqn:Ht; [simpl in H | done].
  constructor; [by rewrite Ht |].
  apply IH in H. simpl in H. eapply Forall_impl; [exact H |].
  intros x Hx. simpl in Hx. rewrite lookup_insert in Hx.
  destruct (decide (name b = name x)) as [<-|]; [by rewrite Ht | done].
Qed.

Lemma miss_pass_total bs : forall p,
  Forall (fun b : Bonus => is_Some (bonuses p !! name b)) bs -> is_Some (miss_pass bs p).
Proof.
  induction bs as [|b bs IH]; intros p H; [by eexists |].
  inversion H as [|? ? [t Ht] Hrest]; subst.
  change (miss_pass (b :: bs) p) with (miss_one p b ≫= miss_pass bs).
  unfold miss_one. rewrite Ht. simpl. apply IH. simpl.
  eapply Forall_impl; [exact Hrest |]. intros x [u Hu]. simpl.
  rewrite lookup_insert. destruct (decide (name b = name x)); [done | by rewrite Hu].
Qed.

Lemma hit_pass_total bs : forall p,
  Forall (fun b : Bonus => is_Some (bonuses p !! name b)) bs -> is_Some (hit_pass bs p).
Proof.
  induction bs as [|b bs IH]; intros p H; [by eexists |].
  inversion H as [|? ? [t Ht] Hrest]; subst.
  change (hit_pass (b :: bs) p) with (hit_one p b ≫= hit_pass bs).
  unfold hit_one. rewrite Ht. simpl. apply IH. simpl.
  eapply Forall_impl; [exact Hrest |]. intros x [u Hu]. simpl.
  rewrite lookup_insert. destruct (decide (name b = name x)); [done | by rewrite Hu].
Qed.

(** Whatever a completed frame missed or caught had a tally when the frame
    began. *)
Lemma frame_lookups inp s r :
  frame IMAGES collided inp s = Some r ->
  Forall (fun b : Bonus => is_Some (bonuses (s_player s) !! name b))
         (f_missed r ++ f_hits r).
Proof.
  intros H.
  destruct (frame_Some _ _ _ H) as (bs1 & p1 & _ & _ & Hmiss & _ & _ & Hhit & _).
  destruct (get_input_stats (events inp) (s_player s)) as (_ & _ & Hb0 & _).
  set (p0 := (get_input (events inp) (s_player s)).1) in *.
  set (quit := (get_input (events inp) (s_player s)).2) in *.
  destruct (miss_pass_effect _ _ _ Hmiss) as (_ & _ & _ & _ & _ & _ & _ & Hk1).
  destruct (loss_check_spec (misses_allowed (score p0)) p1 quit)
    as (_ & (_ & _ & Hb2 & _) & _).
  set (p2 := (loss_check (misses_allowed (score p0)) (p1, quit)).1) in *.
  destruct (Player_update_stats p2) as (_ & _ & Hb3 & _).
  apply Forall_app. split.
  - rewrite <- Hb0. eapply miss_pass_lookup, Hmiss.
  - apply hit_pass_lookup in Hhit. eapply Forall_impl; [exact Hhit |].
    intros x. simpl. rewrite Hb3, Hb2, Hk1, Hb0.
    destruct (bonuses (s_player s) !! name x); [by eexists | by intros [? ?]].
Qed.

Lemma count_name_single (b : Bonus) : count_name (name b) [b] = 1.
Proof. unfold count_name. simpl. by rewrite String.eqb_refl. Qed.

(** C1: a frame entered with one miss less than [misses_allowed(score)]
    that misses one bonus [b] and catches one bonus [h] ends with
    [game_over] set and the player sad, and with the catch counted all the
    same: the score has lost [b]'s points and gained [h]'s and the hit
    tally of [h]'s name is one higher.  The miss pass runs first, the loss
    check reads its result, and the hit pass runs on the player the loss
    check (and [Player.update]) returned. *)
Theorem losing_frame_still_counts_hit inp s r (b h : Bonus) :
  frame IMAGES collided inp s = Some r ->
  misses (s_player s) = misses_allowed (score (s_player s)) - 1 ->
  f_missed r = [b] ->
  f_hits r = [h] ->
  let p := s_player s in
  let p' := s_player (f_session r) in
  let p0 := (get_input (events inp) p).1 in
  let quit := (get_input (events inp) p).2 in
  s_game_over (f_session r) = true /\
  emote p' = emote_sad /\
  misses p' = misses p + 1 /\
  score p' = score p - points b + points h /\
  (exists t t', bonuses p !! name h = Some t /\ bonuses p' !! name h = Some t' /\
                hit t' = hit t + 1) /\
  (exists u u', bonuses p !! name b = Some u /\ bonuses p' !! name b = Some u' /\
                miss u' = miss u + 1) /\
  (exists p1 p2, miss_pass [b] p0 = Some p1 /\
                 loss_check (misses_allowed (score p0)) (p1, quit) = (p2, true) /\
                 hit_pass [h] (Player_update p2) = Some p').
Proof.
  intros H Hm Hb Hh. cbv zeta.
  destruct (frame_effect _ _ _ H) as (Hsc & Hmi & Hov & Hem & Hk).
  pose proof (frame_lookups _ _ _ H) as Hl.
  rewrite Hb, Hh in *. simpl in Hsc, Hmi, Hl.
  assert (Hge : misses_allowed (score (s_player s)) <= misses (s_player (f_session r)))
    by lia.
  assert (Hover : s_game_over (f_session r) = true).
  { rewrite Hov. destruct (Z.geb_spec (misses (s_player (f_session r)))
                             (misses_allowed (score (s_player s)))); [| lia].
    apply orb_true_r. }
  inversion Hl as [|? ? [u Hu] Hl']; subst.
  inversion Hl' as [|? ? [t Ht] _]; subst.
  split; [exact Hover |]. split; [by apply Hem |]. split; [lia |]. split; [lia |].
  split; [| split].
  - exists t. eexists. split; [done |]. rewrite Hk, Ht. simpl. split; [done |].
    simpl. rewrite count_name_single. done.
  - exists u. eexists. split; [done |]. rewrite Hk, Hu. simpl. split; [done |].
    simpl. rewrite count_name_single. done.
  - destruct (frame_Some _ _ _ H) as (bs1 & p1 & _ & _ & Hmiss & _ & _ & Hhit & Hg).
    rewrite Hb in Hmiss. rewrite Hh in Hhit.
    exists p1. eexists. split; [exact Hmiss |]. split; [| exact Hhit].
    rewrite <- Hover, Hg. by destruct (loss_check _ _).
Qed.

End Frame.

(** ** Score and tallies *)

Lemma catalog_lookup_elem k cat info :
  catalog_lookup k cat = Some info -> (k, info) ∈ cat.
Proof.
  induction cat as [|[k0 i0] cat IH]; simpl; [done |].
  destruct (String.eqb_spec k0 k) as [->|].
  - intros [= ->]. left.
  - intros H. right. by apply IH.
Qed.

Lemma catalog_lookup_None k cat :
  k ∉ map fst cat -> catalog_lookup k cat = None.
Proof.
  induction cat as [|[k0 i0] cat IH]; simpl; [done |].
  intros H. apply not_elem_of_cons in H as [Hne Hin].
  destruct (String.eqb_spec k0 k); [congruence | by apply IH].
Qed.

Lemma catalog_sum_insert_absent f cat m k t :
  k ∉ map fst cat -> catalog_sum f cat (<[k := t]> m) = catalog_sum f cat m.
Proof.
  induction cat as [|[k0 i0] cat IH]; simpl; [done |].
  intros H. apply not_elem_of_cons in H as [Hne Hin].
  rewrite IH by done. unfold tally. simpl. by rewrite lookup_insert_ne.
Qed.

(** Replacing the tally of one catalog name changes the sum by that
    name's term. *)
Lemma catalog_sum_insert f cat m k t t' info :
  NoDup (map fst cat) ->
  catalog_lookup k cat = Some info ->
  m !! k = Some t ->
  catalog_sum f cat (<[k := t']> m) = catalog_sum f cat m + f info t' - f info t.
Proof.
  intros Hnd Hk Hm.
  induction cat as [|[k0 i0] cat IH]; simpl in *; [done |].
  apply NoDup_cons in Hnd as [Hnotin Hnd].
  destruct (String.eqb_spec k0 k) as [->|Hne].
  - injection Hk as ->.
    rewrite catalog_sum_insert_absent by done.
    unfold tally. simpl. rewrite lookup_insert_eq, Hm. simpl. lia.
  - rewrite IH by done. unfold tally. simpl. rewrite lookup_insert_ne by done. lia.
Qed.

Lemma BONUSES_NoDup : NoDup (map fst BONUSES).
Proof. apply (bool_decide_unpack (NoDup (map fst BONUSES))). by vm_compute. Qed.

Lemma BONUSES_points_pos k info : BONUSES_get k = Some info -> 0 < info_points info.
Proof.
  intros H. apply catalog_lookup_elem in H.
  assert (Hall : Forall (fun e : string * BonusInfo => 0 < info_points e.2) BONUSES)
    by (repeat constructor).
  rewrite Forall_forall in Hall. apply (Hall _ H).
Qed.

Lemma miss_one_inv p b p' :
  catalog_ok b -> tally_inv p -> miss_one p b = Some p' -> tally_inv p'.
Proof.
  intros (info & Hinfo & Hpts) [Hs Hm]. unfold miss_one.
  destruct (bonuses p !! name b) as [t|] eqn:Ht; [| done].
  intros [= <-]. unfold tally_inv, tallied_score, tallied_misses in *.
  cbn [score misses bonuses].
  rewrite !(catalog_sum_insert _ _ _ _ t _ info) by (done || apply BONUSES_NoDup).
  cbn [hit miss]. lia.
Qed.

Lemma hit_one_inv p b p' :
  catalog_ok b -> tally_inv p -> hit_one p b = Some p' -> tally_inv p'.
Proof.
  intros (info & Hinfo & Hpts) [Hs Hm]. unfold hit_one.
  destruct (bonuses p !! name b) as [t|] eqn:Ht; [| done].
  intros [= <-]. unfold tally_inv, tallied_score, tallied_misses in *.
  cbn [score misses bonuses].
  rewrite !(catalog_sum_insert _ _ _ _ t _ info) by (done || apply BONUSES_NoDup).
  cbn [hit miss]. lia.
Qed.

Lemma for_each_inv (body : Player -> Bonus -> option Player) bs :
  (forall p b p', catalog_ok b -> tally_inv p -> body p b = Some p' -> tally_inv p') ->
  forall p p', Forall catalog_ok bs -> tally_inv p ->
               for_each body bs p = Some p' -> tally_inv p'.
Proof.
  intros Hbody. induction bs as [|b bs IH]; intros p p' Hok Hinv H; simpl in H.
  - by injection H as <-.
  - apply Forall_cons in Hok as [Hb Hok].
    destruct (body p b) as [p1|] eqn:E; [simpl in H | done].
    eapply IH; [done | | exact H]. by eapply Hbody.
Qed.

Lemma same_stats_inv p q : same_stats p q -> tally_inv p -> tally_inv q.
Proof. unfold tally_inv. intros (-> & -> & -> & _). done. Qed.

(** ** Invariants of the loop *)

Lemma Forall_List_filter {A} (P : A -> Prop) (f : A -> bool) (l : list A) :
  Forall P l -> Forall P (List.filter f l).
Proof.
  induction 1 as [|x l Hx Hl IH]; simpl; [constructor |].
  destruct (f x); [by constructor | done].
Qed.

Lemma Bonus_update_catalog_ok (b : Bonus) : catalog_ok b -> catalog_ok (Bonus_update b).
Proof. intros (info & H1 & H2). by exists info. Qed.

Lemma catalog_ok_covered p (b : Bonus) :
  tallies_cover p -> catalog_ok b -> is_Some (bonuses p !! name b).
Proof. intros Hc (info & H & _). by eapply Hc. Qed.

Lemma Player_init_inv IMAGES nm :
  tally_inv (Player_init IMAGES nm) /\ tallies_cover (Player_init IMAGES nm).
Proof.
  split; [by vm_compute |].
  intros k info H. apply catalog_lookup_elem in H.
  unfold BONUSES in H. cbn [Player_init bonuses].
  repeat (apply elem_of_cons in H as [[= -> ->]|H];
          [rewrite <- not_eq_None_Some; by vm_compute |]).
  by apply elem_of_nil in H.
Qed.

Section Loop.

Variable IMAGES : string -> Z * Z.
Variable collided : Player -> Bonus -> bool.

Lemma spawn_catalog_ok om d bs bs1 :
  Forall catalog_ok bs -> spawn IMAGES om d bs = Some bs1 -> Forall catalog_ok bs1.
Proof.
  intros Hok H. destruct (spawn_Some _ _ _ _ _ H) as [(_ & b & Hb & ->) | (_ & ->)]; [| done].
  apply Forall_app. split; [done |]. constructor; [| constructor].
  destruct (Bonus_init_Some _ _ _ _ _ _ Hb) as (info & H1 & H2 & _). by exists info.
Qed.

(** A completed frame keeps the score in step with the tallies, and only
    handles bonuses that carry their catalog points. *)
Lemma frame_inv inp s r :
  frame IMAGES collided inp s = Some r ->
  tally_inv (s_player s) -> Forall catalog_ok (s_bonuses s) ->
  tally_inv (s_player (f_session r)) /\
  Forall catalog_ok (s_bonuses (f_session r)) /\
  Forall catalog_ok (f_missed r) /\ Forall catalog_ok (f_hits r).
Proof.
  intros H Hinv Hok.
  destruct (frame_Some _ _ _ _ _ H)
    as (bs1 & p1 & Hsp & Hmissed & Hmiss & Hhits & Hrest & Hhit & _).
  pose proof (get_input_stats (events inp) (s_player s)) as Hst0.
  set (p0 := (get_input (events inp) (s_player s)).1) in *.
  set (quit := (get_input (events inp) (s_player s)).2) in *.
  pose proof (spawn_catalog_ok _ _ _ _ Hok Hsp) as Hok1.
  destruct (loss_check_spec (misses_allowed (score p0)) p1 quit)
    as (_ & (Hs2 & Hm2 & Hb2 & _) & _).
  set (p2 := (loss_check (misses_allowed (score p0)) (p1, quit)).1) in *.
  set (p3 := Player_update p2) in *.
  assert (Hok3 : Forall catalog_ok
            (map Bonus_update (List.filter (fun b => negb (is_missed b)) bs1))).
  { apply Forall_map. eapply Forall_impl; [by apply Forall_List_filter |].
    apply Bonus_update_catalog_ok. }
  assert (Hokm : Forall catalog_ok (f_missed r))
    by (rewrite Hmissed; by apply Forall_List_filter).
  assert (Hokh : Forall catalog_ok (f_hits r))
    by (rewrite Hhits; by apply Forall_List_filter).
  split; [| split; [| split]]; try done.
  - eapply (for_each_inv hit_one); [apply hit_one_inv | exact Hokh | | exact Hhit].
    apply (same_stats_inv p2); [apply Player_update_stats |].
    assert (Hinv1 : tally_inv p1).
    { eapply (for_each_inv miss_one); [apply miss_one_inv | exact Hokm | | exact Hmiss].
      by apply (same_stats_inv (s_player s)). }
    destruct Hinv1 as [Ha Hb]. unfold tally_inv. by rewrite Hs2, Hm2, Hb2.
  - rewrite Hrest. by apply Forall_List_filter.
Qed.

Lemma frame_cover inp s r :
  frame IMAGES collided inp s = Some r ->
  tallies_cover (s_player s) -> tallies_cover (s_player (f_session r)).
Proof.
  intros H Hc k info Hk.
  destruct (frame_effect _ _ _ _ _ H) as (_ & _ & _ & _ & Hl).
  rewrite Hl. destruct (Hc k info Hk) as [t ->]. by eexists.
Qed.

(** A frame completes when the draws offered for a spawn are ones
    [Bonus.__init__] can make. *)
Lemma frame_total inp s :
  tallies_cover (s_player s) -> Forall catalog_ok (s_bonuses s) ->
  is_Some (Bonus_init IMAGES None 0 0 (draws inp)) ->
  is_Some (frame IMAGES collided inp s).
Proof.
  intros Hc Hok [b Hb]. unfold frame.
  pose proof (get_input_stats (events inp) (s_player s)) as (_ & _ & Hb0 & _).
  destruct (get_input (events inp) (s_player s)) as [p0 quit]. simpl in Hb0.
  assert (Hsp : exists bs1, spawn IMAGES (objects_max (score p0)) (draws inp) (s_bonuses s)
                            = Some bs1).
  { unfold spawn. destruct (_ <? _); [rewrite Hb |]; by eexists. }
  destruct Hsp as [bs1 Hsp]. rewrite Hsp. simpl.
  pose proof (spawn_catalog_ok _ _ _ _ Hok Hsp) as Hok1.
  assert (Hc0 : tallies_cover p0) by (intros k info Hk; rewrite Hb0; by eapply Hc).
  destruct (miss_pass_total (List.filter is_missed bs1) p0) as [p1 Hmiss].
  { eapply Forall_impl; [by apply Forall_List_filter |].
    intros x Hx. by apply catalog_ok_covered. }
  rewrite Hmiss. simpl.
  destruct (miss_pass_effect _ _ _ Hmiss) as (_ & _ & _ & _ & _ & _ & _ & Hk1).
  destruct (loss_check_spec (misses_allowed (score p0)) p1 quit)
    as (_ & (_ & _ & Hb2 & _) & _).
  destruct (loss_check _ (p1, quit)) as [p2 over]. simpl in Hb2.
  destruct (Player_update_stats p2) as (_ & _ & Hb3 & _).
  set (p3 := Player_update p2) in *.
  destruct (hit_pass_total
              (List.filter (collided p3)
                 (map Bonus_update (List.filter (fun b => negb (is_missed b)) bs1))) p3)
    as [p4 Hhit].
  { apply Forall_List_filter, Forall_map.
    eapply Forall_impl; [by apply Forall_List_filter |].
    intros x (info & Hx & _). simpl. rewrite Hb3, Hb2, Hk1.
    destruct (Hc0 _ _ Hx) as [t ->]. by eexists. }
  rewrite Hhit. by eexists.
Qed.

Lemma main_init_inv : session_inv (main_init IMAGES).
Proof.
  destruct (Player_init_inv IMAGES "max") as [H1 H2].
  split; [exact H1 | split; [exact H2 | constructor]].
Qed.

Lemma frame_session_inv inp s r :
  frame IMAGES collided inp s = Some r -> session_inv s ->
  session_inv (f_session r) /\ Forall catalog_ok (f_missed r) /\
  Forall catalog_ok (f_hits r).
Proof.
  intros H (Hi & Hc & Hok).
  destruct (frame_inv _ _ _ H Hi Hok) as (H1 & H2 & H3 & H4).
  pose proof (frame_cover _ _ _ H Hc) as Hc'.
  split; [split; [exact H1 | split; [exact Hc' | exact H2]] | split; [exact H3 | exact H4]].
Qed.

Lemma main_loop_cons inp rest s :
  s_game_over s = false ->
  main_loop IMAGES collided (inp :: rest) s
  = r ← frame IMAGES collided inp s;
    '(s1, ms, hs) ← main_loop IMAGES collided rest (f_session r);
    Some (s1, f_missed r ++ ms, f_hits r ++ hs).
Proof. intros H. simpl. by rewrite H. Qed.

Lemma main_loop_over inputs s :
  s_game_over s = true -> main_loop IMAGES collided inputs s = Some (s, [], []).
Proof. intros H. destruct inputs; simpl; [done | by rewrite H]. Qed.

(** One step of the loop, read back. *)
Lemma main_loop_step inp rest s s' ms hs :
  s_game_over s = false ->
  main_loop IMAGES collided (inp :: rest) s = Some (s', ms, hs) ->
  exists r ms1 hs1,
    frame IMAGES collided inp s = Some r /\
    main_loop IMAGES collided rest (f_session r) = Some (s', ms1, hs1) /\
    ms = f_missed r ++ ms1 /\ hs = f_hits r ++ hs1.
Proof.
  intros Hg H. rewrite main_loop_cons in H by done.
  destruct (frame IMAGES collided inp s) as [r|] eqn:Hf; [simpl in H | done].
  destruct (main_loop IMAGES collided rest (f_session r)) as [[[s1 ms1] hs1]|] eqn:Hr;
    [simpl in H | done].
  injection H as <- <- <-. by exists r, ms1, hs1.
Qed.

Lemma main_loop_inv inputs : forall s s' ms hs,
  session_inv s ->
  main_loop IMAGES collided inputs s = Some (s', ms, hs) ->
  session_inv s' /\ Forall catalog_ok ms /\ Forall catalog_ok hs.
Proof.
  induction inputs as [|inp rest IH]; intros s s' ms hs Hinv H.
  - injection H as <- <- <-. split; [done | split; constructor].
  - destruct (s_game_over s) eqn:Hg.
    + rewrite main_loop_over in H by done. injection H as <- <- <-.
      split; [done | split; constructor].
    + destruct (main_loop_step _ _ _ _ _ _ Hg H) as (r & ms1 & hs1 & Hf & Hr & -> & ->).
      destruct (frame_session_inv _ _ _ Hf Hinv) as (Hinv1 & Hm & Hh).
      destruct (IH _ _ _ _ Hinv1 Hr) as (Hinv' & Hm' & Hh').
      split; [done |]. split; by apply Forall_app.
Qed.

(** The loop runs through any inputs whose draws [Bonus.__init__] can
    make: no statement of the body raises. *)
Lemma main_loop_total inputs : forall s,
  session_inv s ->
  Forall (fun inp => is_Some (Bonus_init IMAGES None 0 0 (draws inp))) inputs ->
  is_Some (main_loop IMAGES collided inputs s).
Proof.
  induction inputs as [|inp rest IH]; intros s Hinv Hd; [by eexists |].
  apply Forall_cons in Hd as [Hd Hrest].
  destruct (s_game_over s) eqn:Hg; [rewrite main_loop_over by done; by eexists |].
  rewrite main_loop_cons by done.
  destruct Hinv as (Hi & Hc & Hok).
  destruct (frame_total inp s Hc Hok Hd) as [r Hr].
  rewrite Hr. simpl.
  destruct (frame_session_inv _ _ _ Hr (conj Hi (conj Hc Hok))) as (Hinv1 & _).
  destruct (IH _ Hinv1 Hrest) as [[[s1 ms1] hs1] ->]. by eexists.
Qed.

(** The score and the miss counter after the loop, from everything missed
    and caught on the way. *)
Lemma main_loop_stats inputs : forall s s' ms hs,
  main_loop IMAGES collided inputs s = Some (s', ms, hs) ->
  score (s_player s') = score (s_player s) - sum_points ms + sum_points hs /\
  misses (s_player s') = misses (s_player s) + Z.of_nat (length ms).
Proof.
  induction inputs as [|inp rest IH]; intros s s' ms hs H.
  - injection H as <- <- <-. simpl. lia.
  - destruct (s_game_over s) eqn:Hg.
    + rewrite main_loop_over in H by done. injection H as <- <- <-. simpl. lia.
    + destruct (main_loop_step _ _ _ _ _ _ Hg H) as (r & ms1 & hs1 & Hf & Hr & -> & ->).
      destruct (frame_effect _ _ _ _ _ Hf) as (Hs & Hm & _).
      destruct (IH _ _ _ _ Hr) as (Hs' & Hm').
      rewrite !sum_points_app, length_app. lia.
Qed.

(** C9: the player [Player.__init__] makes has its score equal to the sum
    over the catalog of [points * (hit - miss)] and its miss counter equal
    to the sum of the [miss] tallies; the miss pass and the hit pass keep
    both equations, over bonuses that carry their catalog points; and both
    hold of the player each time the loop of [main] comes round. *)
Theorem score_follows_tallies :
  tally_inv (Player_init IMAGES "max") /\
  (forall bs p p', Forall catalog_ok bs -> tally_inv p ->
                   miss_pass bs p = Some p' -> tally_inv p') /\
  (forall bs p p', Forall catalog_ok bs -> tally_inv p ->
                   hit_pass bs p = Some p' -> tally_inv p') /\
  (forall inputs s ms hs,
     main_loop IMAGES collided inputs (main_init IMAGES) = Some (s, ms, hs) ->
     score (s_player s) = tallied_score (bonuses (s_player s)) /\
     misses (s_player s) = tallied_misses (bonuses (s_player s))).
Proof.
  split; [apply Player_init_inv |]. split; [| split].
  - intros bs p p'. apply (for_each_inv miss_one), miss_one_inv.
  - intros bs p p'. apply (for_each_inv hit_one), hit_one_inv.
  - intros inputs s ms hs H.
    destruct (main_loop_inv _ _ _ _ _ main_init_inv H) as ((Hi & _) & _).
    exact Hi.
Qed.

Lemma sum_points_nonneg bs : Forall catalog_ok bs -> 0 <= sum_points bs.
Proof.
  induction 1 as [|b bs (info & Hb & Hp) _ IH]; simpl; [lia |].
  pose proof (BONUSES_points_pos _ _ Hb). lia.
Qed.

(** While nothing is caught the score stays at or below zero and the loop
    goes on only with fewer than [MISSES_ALLOWED] misses. *)
Lemma no_hit_run inputs : forall s s' ms,
  session_inv s -> score (s_player s) <= 0 ->
  (s_game_over s = false -> misses (s_player s) < MISSES_ALLOWED) ->
  main_loop IMAGES collided inputs s = Some (s', ms, []) ->
  score (s_player s') <= 0 /\
  (s_game_over s' = false -> misses (s_player s') < MISSES_ALLOWED).
Proof.
  induction inputs as [|inp rest IH]; intros s s' ms Hinv Hsc Hrun H.
  - by injection H as <- <-.
  - destruct (s_game_over s) eqn:Hg.
    + rewrite main_loop_over in H by done. injection H as <- <-.
      split; [exact Hsc | congruence].
    + destruct (main_loop_step _ _ _ _ _ _ Hg H) as (r & ms1 & hs1 & Hf & Hr & -> & Hnil).
      symmetry in Hnil. apply app_eq_nil in Hnil as [Hh ->].
      destruct (frame_session_inv _ _ _ Hf Hinv) as (Hinv1 & Hokm & _).
      destruct (frame_effect _ _ _ _ _ Hf) as (Hs & Hm & Hov & _).
      rewrite Hh in Hs. simpl in Hs.
      pose proof (sum_points_nonneg _ Hokm) as Hpos.
      apply (IH _ _ ms1 Hinv1); [lia | | exact Hr].
      intros Hrun1. rewrite Hov in Hrun1.
      apply orb_false_iff in Hrun1 as [_ Hlt].
      pose proof (misses_allowed_mono _ _ Hsc) as Hma.
      change (misses_allowed 0) with MISSES_ALLOWED in Hma.
      destruct (Z.geb_spec (misses (s_player (f_session r)))
                  (misses_allowed (score (s_player s)))); [done | lia].
Qed.

(** C2, as the code has it: every frame sets [game_over] when a quit came
    or the miss counter, after the frame's misses, has reached
    [misses_allowed] of the score the frame began with.  In a run from the
    start of [main] that catches nothing, the score is minus the total of
    the missed bonuses' points, the miss counter is their number, and the
    loop goes on only with fewer than [MISSES_ALLOWED] = 30 misses; a frame
    begun at a score of 0 or less that ends with 30 misses or more sets
    [game_over]. *)
Theorem misses_only_run_ends_by_30th :
  (forall inp s r,
     frame IMAGES collided inp s = Some r ->
     s_game_over (f_session r)
     = (get_input (events inp) (s_player s)).2
       || (misses (s_player (f_session r)) >=? misses_allowed (score (s_player s)))) /\
  (forall inputs s ms hs,
     main_loop IMAGES collided inputs (main_init IMAGES) = Some (s, ms, hs) ->
     hs = [] ->
     score (s_player s) = - sum_points ms /\
     misses (s_player s) = Z.of_nat (length ms) /\
     (s_game_over s = false -> misses (s_player s) < MISSES_ALLOWED)) /\
  (forall inp s r,
     frame IMAGES collided inp s = Some r ->
     score (s_player s) <= 0 ->
     MISSES_ALLOWED <= misses (s_player (f_session r)) ->
     s_game_over (f_session r) = true) /\
  MISSES_ALLOWED = 30.
Proof.
  split; [| split; [| split; [| reflexivity]]].
  - intros inp s r H. by destruct (frame_effect _ _ _ _ _ H) as (_ & _ & Hov & _).
  - intros inputs s ms hs H ->.
    destruct (main_loop_stats _ _ _ _ _ H) as (Hs & Hm).
    destruct (no_hit_run _ _ _ _ main_init_inv (Z.le_refl 0)
                (fun _ => eq_refl) H) as (_ & Hrun).
    simpl in Hs, Hm. repeat split; [lia | lia | exact Hrun].
  - intros inp s r H Hsc Hge.
    destruct (frame_effect _ _ _ _ _ H) as (_ & _ & -> & _).
    pose proof (misses_allowed_mono _ _ Hsc) as Hma.
    change (misses_allowed 0) with MISSES_ALLOWED in Hma.
    destruct (Z.geb_spec (misses (s_player (f_session r)))
                (misses_allowed (score (s_player s)))); [apply orb_true_r | lia].
Qed.

End Loop.

(** ** Worked runs *)

Lemma spawner_one_per_frame_witness :
  exists r created,
    frame demo_images demo_collided idle_input (main_init demo_images) = Some r /\
    spawn demo_images 10 boot_draws [] = Some created /\
    length created = 1%nat /\
    (length (s_bonuses (f_session r)) + length (f_missed r) + length (f_hits r))%nat
    = 1%nat.
Proof.
  destruct (frame demo_images demo_collided idle_input (main_init demo_images))
    as [r|] eqn:Hf; [| by vm_compute in Hf].
  destruct (spawner_one_per_frame _ _ _ _ _ Hf) as (created & Hsp & Hlen & Hcons).
  exists r, created. split; [reflexivity |]. split; [exact Hsp |].
  split; [exact Hlen |]. rewrite Hcons, Hlen. reflexivity.
Defined.

Lemma negative_score_shrinks_limits_witness :
  -100 < 0 /\ misses_allowed (-100) < MISSES_ALLOWED /\
  score (s_player sunk_session) <= -4000 /\
  objects_max (score (s_player sunk_session)) <= 0 /\
  exists r, frame demo_images demo_collided idle_input sunk_session = Some r /\
            (length (s_bonuses (f_session r)) + length (f_missed r) + length (f_hits r))%nat
            = 0%nat.
Proof.
  destruct (negative_score_shrinks_limits demo_images demo_collided)
    as (Hma & _ & Hom & _ & Hfr).
  assert (Hsc : score (s_player sunk_session) <= -4000) by (vm_compute; discriminate).
  split; [lia |]. split; [apply Hma; lia |]. split; [exact Hsc |].
  split; [apply Hom, Hsc |].
  destruct (frame demo_images demo_collided idle_input sunk_session)
    as [r|] eqn:Hf; [| by vm_compute in Hf].
  exists r. split; [reflexivity |]. exact (Hfr _ _ _ Hsc Hf).
Defined.

Lemma losing_frame_still_counts_hit_witness :
  exists r,
    frame demo_images demo_collided idle_input brink_session = Some r /\
    misses (s_player brink_session)
    = misses_allowed (score (s_player brink_session)) - 1 /\
    f_missed r = [brink_missed] /\
    f_hits r = [Bonus_update brink_caught] /\
    s_game_over (f_session r) = true /\
    emote (s_player (f_session r)) = emote_sad /\
    misses (s_player (f_session r)) = 29 + 1 /\
    score (s_player (f_session r)) = 0 - 50 + 100.
Proof.
  destruct (frame demo_images demo_collided idle_input brink_session)
    as [r|] eqn:Hf; [| by vm_compute in Hf].
  assert (Hm : f_missed r = [brink_missed]).
  { assert (Hc : f_missed <$> frame demo_images demo_collided idle_input brink_session
                 = Some [brink_missed]) by (by vm_compute).
    rewrite Hf in Hc. by injection Hc. }
  assert (Hh : f_hits r = [Bonus_update brink_caught]).
  { assert (Hc : f_hits <$> frame demo_images demo_collided idle_input brink_session
                 = Some [Bonus_update brink_caught]) by (by vm_compute).
    rewrite Hf in Hc. by injection Hc. }
  destruct (losing_frame_still_counts_hit _ _ _ _ _ _ _ Hf eq_refl Hm Hh)
    as (Hover & Hsad & Hmis & Hsc & _).
  exists r. repeat split; assumption.
Defined.

(** C2 does not hold of this run of the code: nobody touches the keyboard,
    boots fall one after the other and none is caught.  The loop is still
    running after 500 frames, with 26 misses and -1300 points, when
    [misses_allowed] is 27; frame 501 brings the 27th miss and sets
    [game_over], at -1350 points.  There is no 31st miss. *)
Lemma game_over_on_27th_miss :
  outcome (main_loop demo_images demo_collided (idle_frames 500) (main_init demo_images))
  = Some (false, 26, -1300, 26%nat, 0%nat) /\
  misses_allowed (-1300) = 27 /\
  outcome (main_loop demo_images demo_collided (idle_frames 501) (main_init demo_images))
  = Some (true, 27, -1350, 27%nat, 0%nat) /\
  27 <> 31.
Proof. split; [by vm_compute | split; [by vm_compute | split; [by vm_compute | lia]]]. Qed.

Lemma misses_only_run_ends_by_30th_witness :
  exists s ms,
    main_loop demo_images demo_collided (idle_frames 501) (main_init demo_images)
    = Some (s, ms, []) /\
    score (s_player s) = - sum_points ms /\
    misses (s_player s) = Z.of_nat (length ms).
Proof.
  destruct (main_loop demo_images demo_collided (idle_frames 501) (main_init demo_images))
    as [[[s ms] hs]|] eqn:Hrun; [| by vm_compute in Hrun].
  assert (Hhs : hs = []).
  { assert (Hc : snd <$> main_loop demo_images demo_collided (idle_frames 501)
                           (main_init demo_images) = Some []) by (by vm_compute).
    rewrite Hrun in Hc. by injection Hc. }
  destruct (misses_only_run_ends_by_30th demo_images demo_collided) as (_ & Hthm & _ & _).
  destruct (Hthm _ _ _ _ Hrun Hhs) as (Hs & Hm & _).
  exists s, ms. rewrite Hhs. repeat split; assumption.
Defined.

Lemma score_follows_tallies_witness :
  exists s ms hs,
    main_loop demo_images demo_collided (left_frames 70) (main_init demo_images)
    = Some (s, ms, hs) /\
    score (s_player s) = tallied_score (bonuses (s_player s)) /\
    misses (s_player s) = tallied_misses (bonuses (s_player s)).
Proof.
  destruct (main_loop demo_images demo_collided (left_frames 70) (main_init demo_images))
    as [[[s ms] hs]|] eqn:Hrun; [| by vm_compute in Hrun].
  destruct (score_follows_tallies demo_images demo_collided) as (_ & _ & _ & Hthm).
  destruct (Hthm _ _ _ _ Hrun) as (Hs & Hm).
  exists s, ms, hs. repeat split; assumption.
Defined.

(** ** The player at the screen edge *)

(** The clamp comes before the move: with the player at or left of the
    margin and moving left, the update ends left of the margin. *)
Lemma Player_update_past_left_margin (p : Player) :
  width p / 2 <= SCREEN_WIDTH - width p / 2 ->
  x_pos p <= width p / 2 -> x_inc p < 0 ->
  x_pos (Player_update p) = width p / 2 + x_inc p /\
  x_pos (Player_update p) < width p / 2.
Proof.
  intros Hw Hx Hi. rewrite Player_update_x_pos. unfold clamp_x.
  destruct (Z.ltb_spec (x_pos p) (width p / 2)); [lia |].
  destruct (Z.gtb_spec (x_pos p) (SCREEN_WIDTH - width p / 2)); lia.
Qed.

(** What the update does guarantee on a screen wider than the sprite: the
    position is within one step of the margins. *)
Lemma Player_update_x_within_step (p : Player) :
  width p / 2 <= SCREEN_WIDTH - width p / 2 ->
  width p / 2 + x_inc p <= x_pos (Player_update p)
  <= SCREEN_WIDTH - width p / 2 + x_inc p.
Proof.
  intros Hw. rewrite Player_update_x_pos. unfold clamp_x.
  destruct (Z.ltb_spec (x_pos p) (width p / 2)); [lia |].
  destruct (Z.gtb_spec (x_pos p) (SCREEN_WIDTH - width p / 2)); lia.
Qed.

(** C3, on the code: from the start of [main], with the left arrow held
    down, the 100 pixel wide player is at x = 52 after the update of frame
    58, at x = 46 after that of frame 59 and at x = 44 after that of every
    later frame, left of [width // 2] = 50.  ([left_frames n] is [n + 1]
    frames.) *)
Theorem player_ends_left_of_margin :
  let after n :=
    '(s, _, _) ← main_loop demo_images demo_collided (left_frames n) (main_init demo_images);
    Some (x_pos (s_player s), width (s_player s) / 2, s_game_over s) in
  after 57%nat = Some (52, 50, false) /\
  after 58%nat = Some (46, 50, false) /\
  after 59%nat = Some (44, 50, false) /\
  after 200%nat = Some (44, 50, false).
Proof. by vm_compute. Qed.

(** * Further properties *)

(** ** [Player.get_input] *)

Lemma handle_events_quit evs : forall p g,
  (foldl handle_event (p, g) evs).2 = g || existsb is_quit evs.
Proof.
  induction evs as [|ev evs IH]; intros p g; [by rewrite orb_false_r |].
  cbn [foldl existsb].
  destruct (handle_event (p, g) ev) as [p1 g1] eqn:E. rewrite IH.
  assert (Hg : g1 = g || is_quit ev).
  { destruct ev as [|[]|k|]; simpl in E; try (injection E as <- <-);
      rewrite ?orb_true_r, ?orb_false_r; try done.
    destruct (x_inc p <? 0), k; simpl in E;
      try (injection E as <- <-; done);
      destruct (x_inc p >? 0); simpl in E; by injection E as <- <-. }
  rewrite Hg. by rewrite orb_assoc.
Qed.

(** X1: [get_input] returns [True] exactly when the frame's events hold a
    QUIT or an escape key-down, wherever it stands among them. *)
Theorem get_input_quit_iff (evs : list Event) (p : Player) :
  (get_input evs p).2 = existsb is_quit evs.
Proof. unfold get_input. by rewrite handle_events_quit. Qed.

Lemma only_steers_refl p : only_steers p p.
Proof. split; [apply same_stats_refl | by repeat split]. Qed.

Lemma only_steers_trans p q r : only_steers p q -> only_steers q r -> only_steers p r.
Proof.
  intros [Hs1 H1] [Hs2 H2]. split; [by eapply same_stats_trans |].
  destruct H1 as (? & ? & ? & ? & ? & ? & ? & ?).
  destruct H2 as (? & ? & ? & ? & ? & ? & ? & ?).
  repeat split; congruence.
Qed.

Lemma Player_turn_steers p d v : only_steers p (Player_turn p d v).
Proof. split; by repeat split. Qed.

Lemma handle_event_steers p g ev : only_steers p (handle_event (p, g) ev).1.
Proof.
  destruct ev as [|[]|k|]; simpl;
    try apply only_steers_refl; try apply Player_turn_steers.
  destruct (x_inc p <? 0), k; simpl;
    try apply only_steers_refl; try apply Player_turn_steers;
    destruct (x_inc p >? 0); simpl;
    try apply only_steers_refl; apply Player_turn_steers.
Qed.

Lemma get_input_steers evs p : only_steers p (get_input evs p).1.
Proof.
  unfold get_input. generalize false as g. revert p.
  induction evs as [|ev evs IH]; intros p g; [apply only_steers_refl |].
  cbn [foldl].
  pose proof (handle_event_steers p g ev) as H.
  destruct (handle_event (p, g) ev) as [p1 g1].
  eapply only_steers_trans; [exact H | apply IH].
Qed.

(** The velocity and the facing after one event. *)
Lemma handle_event_x_inc p g ev :
  let q := (handle_event (p, g) ev).1 in
  (x_inc q = x_inc p /\ direction q = direction p) \/
  (x_inc q = 0 /\ direction q = direction p) \/
  (x_inc q = - speed p /\ direction q = dir_left) \/
  (x_inc q = speed p /\ direction q = dir_right).
Proof.
  destruct ev as [|[]|k|]; simpl; auto.
  destruct (x_inc p <? 0), k; simpl; auto;
    destruct (x_inc p >? 0); simpl; auto.
Qed.

(** X2: whatever the events, [get_input] leaves the score, the miss
    counter, the tallies, the emote, the position, the speed and the bump
    counter as they were, and the horizontal velocity it leaves is the old
    one, zero, or plus or minus the speed. *)
Theorem get_input_only_steers (evs : list Event) (p : Player) :
  let q := (get_input evs p).1 in
  score q = score p /\ misses q = misses p /\ bonuses q = bonuses p /\
  emote q = emote p /\ speed q = speed p /\
  x_pos q = x_pos p /\ y_pos q = y_pos p /\ y_inc q = y_inc p /\
  width q = width p /\ height q = height p /\
  bump_count q = bump_count p /\ y_orig q = y_orig p /\
  (x_inc q = x_inc p \/ x_inc q = 0 \/ x_inc q = - speed p \/ x_inc q = speed p).
Proof.
  cbv zeta.
  destruct (get_input_steers evs p)
    as ((Hs & Hm & Hb & He & Hw & Hh) & _ & _ & Hsp & Hx & Hy & Hyi & Hyo & Hbc).
  repeat split; try done.
  clear. unfold get_input. generalize false as g.
  assert (Hgen : forall (p0 : Player) (g : bool),
            speed p0 = speed p ->
            x_inc p0 = x_inc p \/ x_inc p0 = 0 \/ x_inc p0 = - speed p \/ x_inc p0 = speed p ->
            let q := (foldl handle_event (p0, g) evs).1 in
            x_inc q = x_inc p \/ x_inc q = 0 \/ x_inc q = - speed p \/ x_inc q = speed p).
  { induction evs as [|ev evs IH]; intros p0 g Hsp H0; [exact H0 |].
    cbn [foldl].
    pose proof (handle_event_x_inc p0 g ev) as Hx.
    pose proof (handle_event_steers p0 g ev) as (_ & _ & _ & Hsp1 & _).
    destruct (handle_event (p0, g) ev) as [p1 g1]. cbn [fst] in *.
    apply IH; [congruence |].
    rewrite Hsp in Hx.
    destruct Hx as [[-> _] | [[-> _] | [[-> _] | [-> _]]]]; auto. }
  intros g. apply Hgen; auto.
Qed.


Lemma get_input_snoc2 evs p e1 e2 :
  (get_input (evs ++ [e1; e2]) p).1
  = (handle_event (handle_event (get_input evs p) e1) e2).1.
Proof. unfold get_input. by rewrite foldl_app. Qed.

(** X3: with a positive speed, a key-up of the other arrow does not stop
    the player: after right-down, left-up it moves right at its speed, and
    after left-down, right-up it moves left; the key-up of the arrow that
    drives it stops it and leaves it facing that way. *)
Theorem stale_key_up_ignored (evs : list Event) (p : Player) :
  0 < speed p ->
  let after e1 e2 := (get_input (evs ++ [e1; e2]) p).1 in
  (x_inc (after (KEYDOWN K_RIGHT) (KEYUP K_LEFT)) = speed p /\
   direction (after (KEYDOWN K_RIGHT) (KEYUP K_LEFT)) = dir_right) /\
  (x_inc (after (KEYDOWN K_LEFT) (KEYUP K_RIGHT)) = - speed p /\
   direction (after (KEYDOWN K_LEFT) (KEYUP K_RIGHT)) = dir_left) /\
  (x_inc (after (KEYDOWN K_LEFT) (KEYUP K_LEFT)) = 0 /\
   direction (after (KEYDOWN K_LEFT) (KEYUP K_LEFT)) = dir_left) /\
  (x_inc (after (KEYDOWN K_RIGHT) (KEYUP K_RIGHT)) = 0 /\
   direction (after (KEYDOWN K_RIGHT) (KEYUP K_RIGHT)) = dir_right).
Proof.
  intros Hsp after. subst after. cbv beta. rewrite !get_input_snoc2.
  pose proof (get_input_steers evs p) as (_ & _ & _ & Hs & _).
  destruct (get_input evs p) as [q g]. cbn [fst] in Hs. rewrite <- Hs.
  assert (Hq : 0 < speed q) by lia. clear Hs Hsp.
  cbn [handle_event fst]. cbn [Player_turn Character_set_x_inc x_inc p_char].
  destruct (Z.ltb_spec (speed q) 0), (Z.ltb_spec (- speed q) 0),
    (Z.gtb_spec (speed q) 0), (Z.gtb_spec (- speed q) 0); try lia.
  by cbn.
Qed.

Lemma stale_key_up_ignored_witness :
  0 < speed fast_player /\
  x_inc (get_input [KEYDOWN K_LEFT; KEYDOWN K_RIGHT; KEYUP K_LEFT] fast_player).1 = 6 /\
  direction (get_input [KEYDOWN K_LEFT; KEYDOWN K_RIGHT; KEYUP K_LEFT] fast_player).1
  = dir_right.
Proof.
  assert (H : 0 < speed fast_player) by reflexivity.
  split; [exact H |].
  destruct (stale_key_up_ignored [KEYDOWN K_LEFT] fast_player H) as (Hr & _).
  exact Hr.
Defined.

(** ** [Player.update]: the bump animation *)

Lemma Player_update_keeps (p : Player) :
  direction (Player_update p) = direction p /\ y_orig (Player_update p) = y_orig p /\
  x_inc (Player_update p) = x_inc p /\ y_inc (Player_update p) = y_inc p /\
  height (Player_update p) = height p /\ width (Player_update p) = width p.
Proof. by player_update_cases p. Qed.

(** The three branches of the bump animation. *)
Lemma Player_update_bump (p : Player) :
  let q := Player_update p in
  (BUMP_FREQUENCY < bump_count p ->
   bump_count q = 0 /\ y_pos q = clamp_y p + BUMP_HEIGHT + y_inc p) /\
  (bump_count p <= BUMP_FREQUENCY -> x_inc p <> 0 ->
   bump_count q = bump_count p + 1 /\ y_pos q = y_orig p + y_inc p) /\
  (bump_count p <= BUMP_FREQUENCY -> x_inc p = 0 ->
   bump_count q = bump_count p /\ y_pos q = clamp_y p + y_inc p).
Proof.
  cbv zeta. unfold Player_update.
  destruct (Z.gtb_spec (bump_count p) BUMP_FREQUENCY);
    destruct (Z.eqb_spec (x_inc p) 0); simpl; repeat split; intros; try lia; done.
Qed.

Lemma clamp_y_inside (c : Character) :
  height c / 2 <= y_pos c <= SCREEN_HEIGHT - height c / 2 -> clamp_y c = y_pos c.
Proof.
  intros H. unfold clamp_y.
  destruct (Z.ltb_spec (y_pos c) (height c / 2)); [lia |].
  destruct (Z.gtb_spec (y_pos c) (SCREEN_HEIGHT - height c / 2)); [lia | done].
Qed.

Lemma Player_update_bump_inv (p : Player) : bump_inv p -> bump_inv (Player_update p).
Proof.
  intros (Hyi & Hlo & Hhi & Hcyc).
  destruct (Player_update_keeps p) as (_ & Hyo & _ & Hyi' & Hh & _).
  destruct (Player_update_bump p) as (Hover & Hmove & Hstill).
  unfold bump_inv. rewrite Hyo, Hyi', Hh.
  split; [done |]. split; [done |]. split; [done |].
  unfold BUMP_FREQUENCY, FRAME_RATE, BUMP_HEIGHT in *.
  change (30 / 3) with 10 in *.
  destruct Hcyc as [[Hc Hy] | [Hc Hy]].
  - destruct (Z.eq_dec (x_inc p) 0) as [Hx|Hx].
    + destruct (Hstill ltac:(lia) Hx) as [-> ->].
      rewrite clamp_y_inside by (destruct Hy; lia). left. split; [lia |].
      destruct Hy; [left | right]; lia.
    + destruct (Hmove ltac:(lia) Hx) as [-> ->].
      destruct (Z.eq_dec (bump_count p) 10); [right | left]; lia.
  - destruct (Hover ltac:(lia)) as [-> ->].
    rewrite clamp_y_inside by lia. left. lia.
Qed.

Lemma moving_updates (k : nat) (p : Player) :
  y_inc p = 0 -> x_inc p <> 0 -> bump_count p = 0 ->
  (k <= 11)%nat ->
  let q := Nat.iter k Player_update p in
  bump_count q = Z.of_nat k /\ (1 <= k -> y_pos q = y_orig p)%nat /\
  x_inc q = x_inc p /\ y_inc q = 0 /\ y_orig q = y_orig p /\ height q = height p.
Proof.
  intros Hyi Hx Hb. induction k as [|k IH]; intros Hk; simpl.
  - split; [by rewrite Hb |]. split; [lia | done].
  - destruct (IH ltac:(lia)) as (Hc & _ & Hxq & Hyq & Hoq & Hhq).
    set (q := Nat.iter k Player_update p) in *.
    destruct (Player_update_keeps q) as (_ & Hyo & Hxi & Hyi' & Hh & _).
    destruct (Player_update_bump q) as (_ & Hmove & _).
    unfold BUMP_FREQUENCY, FRAME_RATE in Hmove. change (30 / 3) with 10 in Hmove.
    destruct (Hmove ltac:(lia) ltac:(congruence)) as [Hc' Hy'].
    split; [lia |]. split; [intros _; rewrite Hy'; lia |].
    repeat split; congruence.
Qed.

(** X4: while the player keeps a non-zero horizontal velocity, its updates
    count 1 to 11 at the original height, and the twelfth sets the counter
    back to 0 and puts the player one bump lower: the bob comes every
    twelve frames, not every [BUMP_FREQUENCY] = 10. *)
Theorem bump_every_twelfth_update (p : Player) :
  y_inc p = 0 -> x_inc p <> 0 -> bump_count p = 0 ->
  height p / 2 <= y_orig p <= SCREEN_HEIGHT - height p / 2 ->
  (forall k, (1 <= k <= 11)%nat ->
     bump_count (Nat.iter k Player_update p) = Z.of_nat k /\
     y_pos (Nat.iter k Player_update p) = y_orig p) /\
  bump_count (Nat.iter 12 Player_update p) = 0 /\
  y_pos (Nat.iter 12 Player_update p) = y_orig p + BUMP_HEIGHT.
Proof.
  intros Hyi Hx Hb Hy.
  assert (Hall : forall k, (1 <= k <= 11)%nat ->
            bump_count (Nat.iter k Player_update p) = Z.of_nat k /\
            y_pos (Nat.iter k Player_update p) = y_orig p /\
            height (Nat.iter k Player_update p) = height p /\
            y_inc (Nat.iter k Player_update p) = 0).
  { intros k Hk.
    pose proof (moving_updates k p Hyi Hx Hb (proj2 Hk)) as H. cbv zeta in H.
    destruct H as (Hc & Hyk & _ & Hyik & _ & Hh).
    split; [exact Hc | split; [exact (Hyk (proj1 Hk)) | split; [exact Hh | exact Hyik]]]. }
  split; [intros k Hk; destruct (Hall k Hk) as (? & ? & _); by split |].
  rewrite (Nat.iter_succ 11).
  assert (H11 : (1 <= 11 <= 11)%nat) by (split; [apply Nat.lt_0_succ | apply Nat.le_refl]).
  specialize (Hall 11%nat H11). clear H11.
  remember (Nat.iter 11 Player_update p) as q eqn:Eq. clear Eq.
  destruct Hall as (Hc & Hyq & Hhq & Hyiq).
  destruct (Player_update_bump q) as (Hover & _).
  unfold BUMP_FREQUENCY, FRAME_RATE in Hover. change (30 / 3) with 10 in Hover.
  assert (Hgt : 10 < bump_count q) by (rewrite Hc; reflexivity).
  destruct (Hover Hgt) as [Hb' Hy'].
  split; [exact Hb' |]. rewrite Hy', Hyiq, clamp_y_inside.
  - rewrite Hyq. apply Z.add_0_r.
  - rewrite Hhq, Hyq. exact Hy.
Qed.

Lemma bump_every_twelfth_update_witness :
  y_inc walking_player = 0 /\ x_inc walking_player <> 0 /\
  bump_count walking_player = 0 /\
  bump_count (Nat.iter 11 Player_update walking_player) = Z.of_nat 11 /\
  y_pos (Nat.iter 11 Player_update walking_player) = y_orig walking_player /\
  bump_count (Nat.iter 12 Player_update walking_player) = 0 /\
  y_pos (Nat.iter 12 Player_update walking_player)
  = y_orig walking_player + BUMP_HEIGHT.
Proof.
  assert (Hx : x_inc walking_player <> 0) by discriminate.
  assert (Hy : height walking_player / 2 <= y_orig walking_player
               <= SCREEN_HEIGHT - height walking_player / 2)
    by (split; discriminate).
  pose proof (bump_every_twelfth_update walking_player eq_refl Hx eq_refl Hy)
    as [Hk [Hc12 Hy12]].
  pose proof (Hk 11%nat (conj (Nat.lt_0_succ 10) (Nat.le_refl 11))) as [Hc11 Hy11].
  exact (conj eq_refl (conj Hx (conj eq_refl
           (conj Hc11 (conj Hy11 (conj Hc12 Hy12)))))).
Defined.

(** ** The player through the frames of [main] *)

Lemma loss_check_keeps ma p g :
  let q := (loss_check ma (p, g)).1 in
  p_char q = p_char p /\ direction q = direction p /\
  y_orig q = y_orig p /\ bump_count q = bump_count p /\
  ((emote q = emote p /\ (loss_check ma (p, g)).2 = g /\ misses p < ma) \/
   (emote q = emote_sad /\ (loss_check ma (p, g)).2 = true /\ ma <= misses p)).
Proof.
  unfold loss_check. destruct (Z.geb_spec (misses p) ma); simpl.
  - do 4 (split; [done |]). right. split; [done | split; [done | lia]].
  - do 4 (split; [done |]). left. split; [done | split; [done | lia]].
Qed.

Section PlayerFrames.

Variable IMAGES : string -> Z * Z.
Variable collided : Player -> Bonus -> bool.

(** The player a frame ends with is the player after the events, updated
    once, as far as position, velocity, facing and bump state go. *)
Lemma frame_player inp s r :
  frame IMAGES collided inp s = Some r ->
  let p0 := (get_input (events inp) (s_player s)).1 in
  let p' := s_player (f_session r) in
  exists p2,
    p_char p2 = p_char p0 /\ direction p2 = direction p0 /\
    y_orig p2 = y_orig p0 /\ bump_count p2 = bump_count p0 /\
    p_char p' = p_char (Player_update p2) /\
    direction p' = direction (Player_update p2) /\
    y_orig p' = y_orig (Player_update p2) /\
    bump_count p' = bump_count (Player_update p2) /\
    ((emote p' = emote (s_player s) /\
      s_game_over (f_session r) = (get_input (events inp) (s_player s)).2) \/
     (emote p' = emote_sad /\ s_game_over (f_session r) = true)).
Proof.
  intros H. cbv zeta.
  destruct (frame_Some _ _ _ _ _ H) as (bs1 & p1 & _ & _ & Hmiss & _ & _ & Hhit & Hover).
  destruct (get_input_stats (events inp) (s_player s)) as (_ & _ & _ & He0 & _).
  set (p0 := (get_input (events inp) (s_player s)).1) in *.
  set (quit := (get_input (events inp) (s_player s)).2) in *.
  destruct (miss_pass_effect _ _ _ Hmiss) as (_ & _ & Hc1 & He1 & Hd1 & Hy1 & Hb1 & _).
  destruct (loss_check_keeps (misses_allowed (score p0)) p1 quit)
    as (Hc2 & Hd2 & Hy2 & Hb2 & He2).
  set (p2 := (loss_check (misses_allowed (score p0)) (p1, quit)).1) in *.
  destruct (hit_pass_effect _ _ _ Hhit) as (_ & _ & Hc4 & He4 & Hd4 & Hy4 & Hb4 & _).
  destruct (Player_update_stats p2) as (_ & _ & _ & He3 & _).
  exists p2. repeat split; try congruence.
  rewrite Hover, He4, He3.
  destruct He2 as [(He & Hg & _) | (He & Hg & _)]; [left | right]; split; congruence.
Qed.

(** An invariant of the frames is an invariant of the loop. *)
Lemma main_loop_ind (P : Session -> Prop) :
  (forall inp s r, s_game_over s = false -> P s ->
                   frame IMAGES collided inp s = Some r -> P (f_session r)) ->
  forall inputs s s' ms hs,
    P s -> main_loop IMAGES collided inputs s = Some (s', ms, hs) -> P s'.
Proof.
  intros Hstep. induction inputs as [|inp rest IH]; intros s s' ms hs HP H.
  - by injection H as <- <- <-.
  - destruct (s_game_over s) eqn:Hg.
    + rewrite main_loop_over in H by done. by injection H as <- <- <-.
    + destruct (main_loop_step _ _ _ _ _ _ _ _ Hg H) as (r & ms1 & hs1 & Hf & Hr & _).
      eapply IH; [| exact Hr]. by eapply Hstep.
Qed.

End PlayerFrames.

Lemma motion_inv_ext (p q : Player) :
  p_char q = p_char p -> direction q = direction p -> motion_inv p -> motion_inv q.
Proof. unfold motion_inv. intros -> ->. done. Qed.

Lemma bump_inv_ext (p q : Player) :
  p_char q = p_char p -> y_orig q = y_orig p -> bump_count q = bump_count p ->
  bump_inv p -> bump_inv q.
Proof. unfold bump_inv. intros -> -> ->. done. Qed.

Lemma handle_event_motion p g ev :
  motion_inv p -> motion_inv (handle_event (p, g) ev).1.
Proof.
  intros (Hw & Hs & Hx & Hl & Hr & Hp).
  pose proof (handle_event_x_inc p g ev) as Hxi.
  pose proof (handle_event_steers p g ev) as ((_ & _ & _ & _ & Hw' & _) & _ & _ & Hs' & Hx' & _).
  set (q := (handle_event (p, g) ev).1) in *.
  unfold motion_inv. rewrite Hw', Hs', Hx'. unfold SPEED_MIN in *.
  split; [done |]. split; [done |].
  destruct Hxi as [[-> ->] | [[-> ->] | [[-> ->] | [-> ->]]]];
    repeat split; try done; try lia.
Qed.

Lemma get_input_motion evs p : motion_inv p -> motion_inv (get_input evs p).1.
Proof.
  unfold get_input. generalize false as g. revert p.
  induction evs as [|ev evs IH]; intros p g H; [done |].
  cbn [foldl]. pose proof (handle_event_motion p g ev H) as H1.
  destruct (handle_event (p, g) ev) as [p1 g1]. by apply IH.
Qed.

Lemma Player_update_motion p : motion_inv p -> motion_inv (Player_update p).
Proof.
  intros (Hw & Hs & Hx & Hl & Hr & Hp).
  destruct (Player_update_keeps p) as (Hd & _ & Hxi & _ & _ & Hw').
  pose proof (Player_update_speed p) as Hsp.
  pose proof (Player_update_x_pos p) as Hxp.
  unfold motion_inv. rewrite Hd, Hxi, Hw', Hsp, Hxp.
  unfold Player_speed, clamp_x, SPEED_MIN, SCREEN_WIDTH in *.
  assert (6 <= width p / 2 <= 400) by (Z.div_mod_to_equations; lia).
  destruct (Z.ltb_spec (score p / 1000) 6), (Z.gtb_spec (score p / 1000) (width p / 2)),
    (Z.ltb_spec (x_pos p) (width p / 2)), (Z.gtb_spec (x_pos p) (800 - width p / 2));
    repeat split; try done; lia.
Qed.

Section PlayerInvariants.

Variable IMAGES : string -> Z * Z.
Variable collided : Player -> Bonus -> bool.

Lemma frame_motion inp s r :
  frame IMAGES collided inp s = Some r ->
  motion_inv (s_player s) -> motion_inv (s_player (f_session r)).
Proof.
  intros H Hinv.
  destruct (frame_player _ _ _ _ _ H) as (p2 & Hc & Hd & _ & _ & Hc' & Hd' & _).
  apply (motion_inv_ext (Player_update p2)); [done | done |].
  apply Player_update_motion.
  apply (motion_inv_ext (get_input (events inp) (s_player s)).1); [done | done |].
  by apply get_input_motion.
Qed.

Lemma main_loop_motion inputs s ms hs :
  12 <= width (Player_init IMAGES "max") <= SCREEN_WIDTH ->
  main_loop IMAGES collided inputs (main_init IMAGES) = Some (s, ms, hs) ->
  motion_inv (s_player s).
Proof.
  intros Hw H.
  apply (main_loop_ind IMAGES collided (fun s => motion_inv (s_player s)))
    with (inputs := inputs) (s := main_init IMAGES) (ms := ms) (hs := hs);
    [| | exact H].
  - intros inp s0 r _ Hinv Hf. by eapply frame_motion.
  - unfold motion_inv. split; [exact Hw |].
    unfold main_init, Player_init, Character_init in *. cbn [s_player] in *.
    destruct (IMAGES _) as [w h]. cbn in *.
    unfold SPEED_MIN, SCREEN_WIDTH in *.
    assert (6 <= w / 2) by (Z.div_mod_to_equations; lia).
    repeat split; try done; try lia.
Qed.

(** X5: with a player image between 12 and 800 pixels wide, every time the
    loop of [main] comes round the player's centre is on the screen, its
    speed is between [SPEED_MIN] and half its width, and its horizontal
    velocity is no larger than half its width either way. *)
Theorem player_centre_stays_on_screen inputs s ms hs :
  12 <= width (Player_init IMAGES "max") <= SCREEN_WIDTH ->
  main_loop IMAGES collided inputs (main_init IMAGES) = Some (s, ms, hs) ->
  let p := s_player s in
  0 <= x_pos p <= SCREEN_WIDTH /\
  SPEED_MIN <= speed p <= width p / 2 /\
  - (width p / 2) <= x_inc p <= width p / 2.
Proof.
  intros Hw H.
  destruct (main_loop_motion _ _ _ _ Hw H) as (_ & Hs & Hx & _ & _ & Hp).
  cbv zeta. split; [exact Hp | split; [exact Hs | exact Hx]].
Qed.

(** X6: under the same condition the player always faces the way it
    moves: left when its horizontal velocity is negative, right when it is
    positive. *)
Theorem player_faces_its_motion inputs s ms hs :
  12 <= width (Player_init IMAGES "max") <= SCREEN_WIDTH ->
  main_loop IMAGES collided inputs (main_init IMAGES) = Some (s, ms, hs) ->
  let p := s_player s in
  (x_inc p < 0 -> direction p = dir_left) /\
  (x_inc p > 0 -> direction p = dir_right).
Proof.
  intros Hw H.
  destruct (main_loop_motion _ _ _ _ Hw H) as (_ & _ & _ & Hl & Hr & _).
  cbv zeta. split; [exact Hl | exact Hr].
Qed.

Lemma get_input_bump evs p : bump_inv p -> bump_inv (get_input evs p).1.
Proof.
  intros (Hyi & Hlo & Hhi & Hc).
  destruct (get_input_steers evs p)
    as ((_ & _ & _ & _ & _ & Hh) & _ & _ & _ & _ & Hy & Hyi' & Hyo & Hbc).
  unfold bump_inv. by rewrite Hyi', Hh, Hyo, Hbc, Hy.
Qed.

Lemma frame_bump inp s r :
  frame IMAGES collided inp s = Some r ->
  bump_inv (s_player s) -> bump_inv (s_player (f_session r)).
Proof.
  intros H Hinv.
  destruct (frame_player _ _ _ _ _ H)
    as (p2 & Hc & _ & Hy & Hb & Hc' & _ & Hy' & Hb' & _).
  apply (bump_inv_ext (Player_update p2)); [done | done | done |].
  apply Player_update_bump_inv.
  apply (bump_inv_ext (get_input (events inp) (s_player s)).1); [done | done | done |].
  by apply get_input_bump.
Qed.

(** X7: with a player image at most 394 pixels high, every time the loop
    of [main] comes round the bump counter is between 0 and
    [BUMP_FREQUENCY] + 1 and the player stands at the height it started
    at, two thirds down the screen, or [BUMP_HEIGHT] below it. *)
Theorem player_height_bobs_by_one_bump inputs s ms hs :
  0 <= height (Player_init IMAGES "max") <= 394 ->
  main_loop IMAGES collided inputs (main_init IMAGES) = Some (s, ms, hs) ->
  let p := s_player s in
  0 <= bump_count p <= BUMP_FREQUENCY + 1 /\
  (y_pos p = SCREEN_HEIGHT * 2 / 3 \/ y_pos p = SCREEN_HEIGHT * 2 / 3 + BUMP_HEIGHT).
Proof.
  intros Hh H.
  assert (Hinv : bump_inv (s_player s) /\ y_orig (s_player s) = SCREEN_HEIGHT * 2 / 3).
  { apply (main_loop_ind IMAGES collided
             (fun s => bump_inv (s_player s) /\ y_orig (s_player s) = SCREEN_HEIGHT * 2 / 3))
      with (inputs := inputs) (s := main_init IMAGES) (ms := ms) (hs := hs);
      [| | exact H].
    - intros inp s0 r _ [Hinv Hyo] Hf. split; [by eapply frame_bump |].
      destruct (frame_player _ _ _ _ _ Hf) as (p2 & _ & _ & Hy & _ & _ & _ & Hy' & _).
      destruct (Player_update_keeps p2) as (_ & Hk & _).
      destruct (get_input_steers (events inp) (s_player s0))
        as (_ & _ & _ & _ & _ & _ & _ & Hy0 & _).
      congruence.
    - clear H. unfold bump_inv, main_init, Player_init, Character_init in *.
      cbn [s_player] in *. destruct (IMAGES _) as [w h]. cbn in *.
      unfold BUMP_FREQUENCY, FRAME_RATE, BUMP_HEIGHT, SCREEN_HEIGHT in *.
      change (600 * 2 / 3) with 400. change (30 / 3) with 10.
      assert (h / 2 <= 197) by (Z.div_mod_to_equations; lia).
      split; [| done]. split; [done |]. split; [lia |]. split; [lia |].
      left. split; [lia | by left]. }
  destruct Hinv as [(_ & _ & _ & Hc) <-].
  unfold BUMP_FREQUENCY, FRAME_RATE in *. change (30 / 3) with 10 in *.
  cbv zeta. destruct Hc as [[Hc Hy] | [Hc Hy]]; split; try lia; auto.
Qed.

(** X8: the player is sad only once the game is over: while the loop of
    [main] goes on the emote is the neutral one, and a frame makes the
    player sad exactly when the miss counter it leaves has reached
    [misses_allowed] of the score it began with. *)
Theorem sad_only_when_lost :
  (forall inputs s ms hs,
     main_loop IMAGES collided inputs (main_init IMAGES) = Some (s, ms, hs) ->
     s_game_over s = false -> emote (s_player s) = emote_none) /\
  (forall inp s r,
     frame IMAGES collided inp s = Some r ->
     emote (s_player s) = emote_none ->
     (emote (s_player (f_session r)) = emote_sad <->
      misses_allowed (score (s_player s)) <= misses (s_player (f_session r)))).
Proof.
  split.
  - intros inputs s ms hs H.
    apply (main_loop_ind IMAGES collided
             (fun s => s_game_over s = false -> emote (s_player s) = emote_none))
      with (inputs := inputs) (s := main_init IMAGES) (ms := ms) (hs := hs);
      [| done | exact H].
    intros inp s0 r Hg Hinv Hf Hg'.
    destruct (frame_player _ _ _ _ _ Hf) as (p2 & _ & _ & _ & _ & _ & _ & _ & _ & He).
    destruct He as [[-> _] | [_ Hov]]; [by apply Hinv | congruence].
  - intros inp s r Hf He.
    destruct (frame_effect _ _ _ _ _ Hf) as (_ & _ & _ & Hsad & _).
    split; [| exact Hsad].
    intros Hs.
    destruct (frame_Some _ _ _ _ _ Hf) as (bs1 & p1 & _ & _ & Hmiss & _ & _ & Hhit & _).
    destruct (get_input_stats (events inp) (s_player s)) as (Hs0 & _ & _ & He0 & _).
    set (p0 := (get_input (events inp) (s_player s)).1) in *.
    set (quit := (get_input (events inp) (s_player s)).2) in *.
    destruct (miss_pass_effect _ _ _ Hmiss) as (_ & _ & _ & He1 & _).
    destruct (loss_check_keeps (misses_allowed (score p0)) p1 quit)
      as (_ & _ & _ & _ & He2).
    destruct (loss_check_spec (misses_allowed (score p0)) p1 quit)
      as (_ & (_ & Hm2 & _) & _).
    set (p2 := (loss_check (misses_allowed (score p0)) (p1, quit)).1) in *.
    destruct (hit_pass_effect _ _ _ Hhit) as (_ & Hm4 & _ & He4 & _).
    destruct (Player_update_stats p2) as (_ & Hm3 & _ & He3 & _).
    rewrite Hs0 in He2.
    destruct He2 as [(He2 & _) | (_ & _ & Hge)]; [congruence |].
    rewrite Hm4, Hm3, Hm2. exact Hge.
Qed.

End PlayerInvariants.

Lemma player_centre_stays_on_screen_witness :
  12 <= width (Player_init demo_images "max") <= SCREEN_WIDTH /\
  exists s ms hs,
    main_loop demo_images demo_collided (left_frames 70) (main_init demo_images)
    = Some (s, ms, hs) /\
    0 <= x_pos (s_player s) <= SCREEN_WIDTH.
Proof.
  assert (Hw : 12 <= width (Player_init demo_images "max") <= SCREEN_WIDTH)
    by (split; discriminate).
  split; [exact Hw |].
  destruct (main_loop demo_images demo_collided (left_frames 70) (main_init demo_images))
    as [[[s ms] hs]|] eqn:Hrun; [| by vm_compute in Hrun].
  destruct (player_centre_stays_on_screen _ _ _ _ _ _ Hw Hrun) as (Hx & _).
  exists s, ms, hs. split; [reflexivity | exact Hx].
Defined.

Lemma player_faces_its_motion_witness :
  12 <= width (Player_init demo_images "max") <= SCREEN_WIDTH /\
  exists s ms hs,
    main_loop demo_images demo_collided (left_frames 70) (main_init demo_images)
    = Some (s, ms, hs) /\
    (x_inc (s_player s) < 0 -> direction (s_player s) = dir_left).
Proof.
  assert (Hw : 12 <= width (Player_init demo_images "max") <= SCREEN_WIDTH)
    by (split; discriminate).
  split; [exact Hw |].
  destruct (main_loop demo_images demo_collided (left_frames 70) (main_init demo_images))
    as [[[s ms] hs]|] eqn:Hrun; [| by vm_compute in Hrun].
  destruct (player_faces_its_motion _ _ _ _ _ _ Hw Hrun) as (Hl & _).
  exists s, ms, hs. split; [reflexivity | exact Hl].
Defined.

Lemma player_height_bobs_by_one_bump_witness :
  0 <= height (Player_init demo_images "max") <= 394 /\
  exists s ms hs,
    main_loop demo_images demo_collided (left_frames 70) (main_init demo_images)
    = Some (s, ms, hs) /\
    0 <= bump_count (s_player s) <= BUMP_FREQUENCY + 1 /\
    (y_pos (s_player s) = SCREEN_HEIGHT * 2 / 3 \/
     y_pos (s_player s) = SCREEN_HEIGHT * 2 / 3 + BUMP_HEIGHT).
Proof.
  assert (Hh : 0 <= height (Player_init demo_images "max") <= 394)
    by (split; discriminate).
  split; [exact Hh |].
  destruct (main_loop demo_images demo_collided (left_frames 70) (main_init demo_images))
    as [[[s ms] hs]|] eqn:Hrun; [| by vm_compute in Hrun].
  destruct (player_height_bobs_by_one_bump _ _ _ _ _ _ Hh Hrun) as (Hb & Hy).
  exists s, ms, hs. split; [reflexivity | split; [exact Hb | exact Hy]].
Defined.

Lemma sad_only_when_lost_witness :
  exists s ms hs,
    main_loop demo_images demo_collided (idle_frames 500) (main_init demo_images)
    = Some (s, ms, hs) /\
    s_game_over s = false /\ emote (s_player s) = emote_none.
Proof.
  destruct (main_loop demo_images demo_collided (idle_frames 500) (main_init demo_images))
    as [[[s ms] hs]|] eqn:Hrun; [| by vm_compute in Hrun].
  assert (Hg : s_game_over s = false).
  { assert (Hc : (fun r => s_game_over r.1.1)
                 <$> main_loop demo_images demo_collided (idle_frames 500)
                       (main_init demo_images) = Some false) by (by vm_compute).
    rewrite Hrun in Hc. by injection Hc. }
  destruct (sad_only_when_lost demo_images demo_collided) as (Hrunning & _).
  exists s, ms, hs. split; [reflexivity | split; [exact Hg |]].
  exact (Hrunning _ _ _ _ Hrun Hg).
Defined.

(** ** The group of bonuses through the frames of [main] *)

Lemma List_filter_length_le {A} (f : A -> bool) (l : list A) :
  (length (List.filter f l) <= length l)%nat.
Proof. induction l as [|x l IH]; simpl; [done |]. destruct (f x); simpl; lia. Qed.

Lemma Forall_List_filter_true {A} (f : A -> bool) (l : list A) :
  Forall (fun x => f x = true) (List.filter f l).
Proof.
  induction l as [|x l IH]; simpl; [constructor |].
  destruct (f x) eqn:E; [by constructor | done].
Qed.

Lemma count_name_app k bs1 bs2 :
  count_name k (bs1 ++ bs2) = count_name k bs1 + count_name k bs2.
Proof.
  induction bs1 as [|b bs1 IH]; [unfold count_name; simpl; lia |].
  change ((b :: bs1) ++ bs2) with (b :: (bs1 ++ bs2)).
  rewrite !count_name_cons, IH. lia.
Qed.

Lemma is_missed_false (b : Bonus) :
  is_missed b = false -> y_pos b <= SCREEN_HEIGHT + height b.
Proof. unfold is_missed. destruct (Z.gtb_spec (y_pos b) (SCREEN_HEIGHT + height b)); [done | lia]. Qed.

Lemma Bonus_update_inv (b : Bonus) :
  is_missed b = false -> bonus_inv b -> bonus_inv (Bonus_update b).
Proof.
  intros Hm (Hcat & Hx & Hy & Hxp & Hrot & Hri & Hyp).
  apply is_missed_false in Hm.
  unfold bonus_inv. simpl. rewrite Hx.
  split; [exact Hcat |]. split; [done |]. split; [done |].
  split; [lia |]. split; [apply Z.mod_pos_bound; lia |]. split; [done |]. lia.
Qed.

Lemma Bonus_init_update_inv IMAGES nm x y d (b : Bonus) :
  Bonus_init IMAGES nm x y d = Some b ->
  is_missed b = false -> bonus_inv (Bonus_update b).
Proof.
  intros Hb Hm. apply is_missed_false in Hm.
  destruct (Bonus_init_Some _ _ _ _ _ _ Hb)
    as (info & H1 & H2 & H3 & H4 & _ & Hrot & Hri & Hx & Hy & Hxp & Hyp).
  unfold bonus_inv. simpl. rewrite Hx, Hrot.
  split; [by exists info |]. split; [done |]. split; [done |].
  split; [lia |]. split; [apply Z.mod_pos_bound; lia |]. split; [done |]. lia.
Qed.

Section Group.

Variable IMAGES : string -> Z * Z.
Variable collided : Player -> Bonus -> bool.

Lemma frame_group inp s r :
  frame IMAGES collided inp s = Some r ->
  Forall bonus_inv (s_bonuses s) ->
  (length (s_bonuses s) <= Z.to_nat OBJECTS_MAX)%nat ->
  Forall bonus_inv (s_bonuses (f_session r)) /\
  Forall bonus_inv (f_hits r) /\
  (length (s_bonuses (f_session r)) <= Z.to_nat OBJECTS_MAX)%nat.
Proof.
  intros H Hinv Hlen.
  destruct (frame_Some _ _ _ _ _ H) as (bs1 & p1 & Hsp & _ & _ & Hhits & Hrest & _).
  set (p0 := (get_input (events inp) (s_player s)).1) in *.
  assert (Hupd : Forall bonus_inv
            (map Bonus_update (List.filter (fun b => negb (is_missed b)) bs1))).
  { apply Forall_map.
    pose proof (Forall_List_filter_true (fun b : Bonus => negb (is_missed b)) bs1) as Hnm.
    assert (Hor : Forall (fun b : Bonus => is_missed b = false -> bonus_inv (Bonus_update b))
                    bs1).
    { destruct (spawn_Some _ _ _ _ _ Hsp) as [(_ & b & Hb & ->) | (_ & ->)].
      - apply Forall_app. split.
        + eapply Forall_impl; [exact Hinv |]. intros x Hx Hm. by apply Bonus_update_inv.
        + constructor; [| constructor]. intros Hm. by eapply Bonus_init_update_inv.
      - eapply Forall_impl; [exact Hinv |]. intros x Hx Hm. by apply Bonus_update_inv. }
    apply (Forall_List_filter _ (fun b : Bonus => negb (is_missed b))) in Hor.
    eapply Forall_impl; [apply Forall_and; split; [exact Hnm | exact Hor] |].
    intros x [Hx1 Hx2]. apply Hx2. by apply negb_true_iff. }
  assert (Hlen1 : (length bs1 <= Z.to_nat OBJECTS_MAX)%nat).
  { destruct (spawn_Some _ _ _ _ _ Hsp) as [(Hlt & b & _ & ->) | (_ & ->)]; [| done].
    pose proof (objects_max_le_cap (score p0)). rewrite length_app. simpl.
    unfold OBJECTS_MAX in *. lia. }
  rewrite Hrest, Hhits.
  split; [by apply Forall_List_filter |]. split; [by apply Forall_List_filter |].
  etransitivity; [apply List_filter_length_le |].
  rewrite length_map. etransitivity; [apply List_filter_length_le | exact Hlen1].
Qed.

Lemma main_loop_group inputs s ms hs :
  main_loop IMAGES collided inputs (main_init IMAGES) = Some (s, ms, hs) ->
  Forall bonus_inv (s_bonuses s) /\
  (length (s_bonuses s) <= Z.to_nat OBJECTS_MAX)%nat.
Proof.
  intros H.
  apply (main_loop_ind IMAGES collided
           (fun s => Forall bonus_inv (s_bonuses s) /\
                     (length (s_bonuses s) <= Z.to_nat OBJECTS_MAX)%nat))
    with (inputs := inputs) (s := main_init IMAGES) (ms := ms) (hs := hs);
    [| | exact H].
  - intros inp s0 r _ [Hinv Hlen] Hf.
    destruct (frame_group _ _ _ Hf Hinv Hlen) as (H1 & _ & H2). by split.
  - split; [constructor | simpl; lia].
Qed.

(** X9: every time the loop of [main] comes round the group holds at most
    [OBJECTS_MAX] = 40 bonuses. *)
Theorem group_never_exceeds_cap inputs s ms hs :
  main_loop IMAGES collided inputs (main_init IMAGES) = Some (s, ms, hs) ->
  Z.of_nat (length (s_bonuses s)) <= OBJECTS_MAX /\ OBJECTS_MAX = 40.
Proof.
  intros H. destruct (main_loop_group _ _ _ _ H) as [_ Hlen].
  unfold OBJECTS_MAX in *. lia.
Qed.

(** X10: every time the loop of [main] comes round, each bonus in the group
    carries the points, speed and sound of its catalog entry, has no
    horizontal velocity, falls by between 1 and its speed a frame, lies
    within the horizontal margins [width // 2] and
    [SCREEN_WIDTH - width // 2], has its angle in [0, 360), and before its
    last step was not past [SCREEN_HEIGHT + height]. *)
Theorem group_bonuses_well_placed inputs s ms hs (b : Bonus) :
  main_loop IMAGES collided inputs (main_init IMAGES) = Some (s, ms, hs) ->
  b ∈ s_bonuses s ->
  (exists info, BONUSES_get (name b) = Some info /\
                points b = info_points info /\ speed b = info_speed info /\
                sound b = info_sound info) /\
  x_inc b = 0 /\ 1 <= y_inc b <= speed b /\
  width b / 2 <= x_pos b <= SCREEN_WIDTH - width b / 2 /\
  0 <= rotation b < 360 /\
  y_pos b - y_inc b <= SCREEN_HEIGHT + height b.
Proof.
  intros H Hb. destruct (main_loop_group _ _ _ _ H) as [Hinv _].
  rewrite Forall_forall in Hinv.
  destruct (Hinv b Hb) as (Hcat & Hx & Hy & Hxp & Hrot & _ & Hyp).
  repeat split; try done; lia.
Qed.

End Group.

Lemma group_never_exceeds_cap_witness :
  exists s ms hs,
    main_loop demo_images demo_collided (idle_frames 200) (main_init demo_images)
    = Some (s, ms, hs) /\
    Z.of_nat (length (s_bonuses s)) <= OBJECTS_MAX.
Proof.
  destruct (main_loop demo_images demo_collided (idle_frames 200) (main_init demo_images))
    as [[[s ms] hs]|] eqn:Hrun; [| by vm_compute in Hrun].
  destruct (group_never_exceeds_cap _ _ _ _ _ _ Hrun) as (Hlen & _).
  exists s, ms, hs. split; [reflexivity | exact Hlen].
Defined.

Lemma group_bonuses_well_placed_witness :
  exists s ms hs,
    main_loop demo_images demo_collided (idle_frames 1) (main_init demo_images)
    = Some (s, ms, hs) /\
    Bonus_update demo_bonus ∈ s_bonuses s /\
    width demo_bonus / 2 <= x_pos (Bonus_update demo_bonus)
    <= SCREEN_WIDTH - width demo_bonus / 2.
Proof.
  destruct (main_loop demo_images demo_collided (idle_frames 1) (main_init demo_images))
    as [[[s ms] hs]|] eqn:Hrun; [| by vm_compute in Hrun].
  assert (Hin : Bonus_update demo_bonus ∈ s_bonuses s).
  { assert (Hc : (fun r => s_bonuses r.1.1)
                 <$> main_loop demo_images demo_collided (idle_frames 1)
                       (main_init demo_images) = Some [Bonus_update demo_bonus])
      by (by vm_compute).
    rewrite Hrun in Hc. injection Hc as ->. apply list_elem_of_here. }
  destruct (group_bonuses_well_placed _ _ _ _ _ _ _ Hrun Hin)
    as (_ & _ & _ & Hx & _).
  exists s, ms, hs. split; [reflexivity | split; [exact Hin | exact Hx]].
Defined.

(** ** The tallies and the score over a run *)

Lemma Player_init_lookup IMAGES nm k :
  bonuses (Player_init IMAGES nm) !! k
  = if existsb (String.eqb k) BONUSES_keys then Some (mkTally 0 0) else None.
Proof.
  cbn [Player_init bonuses].
  assert (Hgen : forall keys (m : gmap string Tally),
            foldl (fun m k => <[k := mkTally 0 0]> m) m keys !! k
            = if existsb (String.eqb k) keys then Some (mkTally 0 0) else m !! k).
  { induction keys as [|k0 keys IH]; intros m; [done |].
    cbn [foldl existsb]. rewrite IH.
    destruct (existsb (String.eqb k) keys); [by rewrite orb_true_r |].
    rewrite orb_false_r.
    destruct (String.eqb_spec k k0) as [->|Hne];
      [by rewrite lookup_insert_eq | by rewrite lookup_insert_ne]. }
  rewrite Hgen. by destruct (existsb _ _).
Qed.

Lemma BONUSES_get_keys k :
  existsb (String.eqb k) BONUSES_keys = bool_decide (is_Some (BONUSES_get k)).
Proof.
  unfold BONUSES_get, BONUSES_keys.
  induction BONUSES as [|[k0 i0] cat IH]; [done |].
  cbn [map fst existsb catalog_lookup]. rewrite IH.
  rewrite (String.eqb_sym k k0).
  by destruct (String.eqb k0 k).
Qed.

Lemma catalog_points_mod k info : BONUSES_get k = Some info -> info_points info mod 50 = 0.
Proof.
  intros H. apply catalog_lookup_elem in H.
  assert (Hall : Forall (fun e : string * BonusInfo => info_points e.2 mod 50 = 0) BONUSES)
    by (repeat constructor).
  rewrite Forall_forall in Hall. apply (Hall _ H).
Qed.

Lemma sum_points_mod bs : Forall catalog_ok bs -> sum_points bs mod 50 = 0.
Proof.
  induction 1 as [|b bs (info & Hb & Hp) _ IH]; [done |].
  cbn [sum_points foldr]. fold (sum_points bs).
  pose proof (catalog_points_mod _ _ Hb) as Hm. rewrite <- Hp in Hm.
  rewrite Z.add_mod, Hm, IH by lia. done.
Qed.

Section Runs.

Variable IMAGES : string -> Z * Z.
Variable collided : Player -> Bonus -> bool.

Lemma main_loop_tallies inputs : forall s s' ms hs,
  main_loop IMAGES collided inputs s = Some (s', ms, hs) ->
  forall k, bonuses (s_player s') !! k
            = (fun t => mkTally (hit t + count_name k hs) (miss t + count_name k ms))
              <$> bonuses (s_player s) !! k.
Proof.
  assert (Hid : forall (m : gmap string Tally) k,
            m !! k = (fun t => mkTally (hit t + count_name k []) (miss t + count_name k []))
                     <$> m !! k).
  { intros m k. destruct (m !! k) as [[h m0]|]; [| done].
    unfold count_name. simpl. by rewrite !Z.add_0_r. }
  induction inputs as [|inp rest IH]; intros s s' ms hs H k.
  - injection H as <- <- <-. apply Hid.
  - destruct (s_game_over s) eqn:Hg.
    + rewrite main_loop_over in H by done. injection H as <- <- <-. apply Hid.
    + destruct (main_loop_step _ _ _ _ _ _ _ _ Hg H) as (r & ms1 & hs1 & Hf & Hr & -> & ->).
      destruct (frame_effect _ _ _ _ _ Hf) as (_ & _ & _ & _ & Hk).
      rewrite (IH _ _ _ _ Hr), Hk, !count_name_app.
      destruct (bonuses (s_player s) !! k) as [[h m0]|]; [| done].
      simpl. f_equal. f_equal; lia.
Qed.

(** X11: every time the loop of [main] comes round, the tally dict has an
    entry for each catalog name and for nothing else, and the entry of a
    name holds the number of bonuses of that name caught so far and the
    number missed so far. *)
Theorem tallies_count_caught_and_missed inputs s ms hs (k : string) :
  main_loop IMAGES collided inputs (main_init IMAGES) = Some (s, ms, hs) ->
  bonuses (s_player s) !! k
  = if bool_decide (is_Some (BONUSES_get k))
    then Some (mkTally (count_name k hs) (count_name k ms))
    else None.
Proof.
  intros H. rewrite (main_loop_tallies _ _ _ _ _ H).
  cbn [main_init s_player]. rewrite Player_init_lookup, BONUSES_get_keys.
  by destruct (bool_decide _).
Qed.

(** X12: every time the loop of [main] comes round, the score is a
    multiple of 50 and the miss counter is not negative. *)
Theorem score_is_multiple_of_50 inputs s ms hs :
  main_loop IMAGES collided inputs (main_init IMAGES) = Some (s, ms, hs) ->
  score (s_player s) mod 50 = 0 /\ 0 <= misses (s_player s).
Proof.
  intros H.
  destruct (main_loop_stats _ _ _ _ _ _ _ H) as (Hs & Hm).
  destruct (main_loop_inv _ _ _ _ _ _ _ (main_init_inv IMAGES) H) as (_ & Hokm & Hokh).
  pose proof (sum_points_mod _ Hokm) as H1.
  pose proof (sum_points_mod _ Hokh) as H2.
  simpl in Hs, Hm. split; [| lia].
  rewrite Hs. Z.div_mod_to_equations; lia.
Qed.


End Runs.

Lemma tallies_count_caught_and_missed_witness :
  exists s ms hs,
    main_loop demo_images demo_collided (left_frames 70) (main_init demo_images)
    = Some (s, ms, hs) /\
    bonuses (s_player s) !! "boot"%string
    = Some (mkTally (count_name "boot" hs) (count_name "boot" ms)) /\
    bonuses (s_player s) !! "anvil"%string = None.
Proof.
  destruct (main_loop demo_images demo_collided (left_frames 70) (main_init demo_images))
    as [[[s ms] hs]|] eqn:Hrun; [| by vm_compute in Hrun].
  exists s, ms, hs. split; [reflexivity |]. split.
  - exact (tallies_count_caught_and_missed _ _ _ _ _ _ "boot"%string Hrun).
  - exact (tallies_count_caught_and_missed _ _ _ _ _ _ "anvil"%string Hrun).
Defined.

Lemma score_is_multiple_of_50_witness :
  exists s ms hs,
    main_loop demo_images demo_collided (left_frames 70) (main_init demo_images)
    = Some (s, ms, hs) /\
    score (s_player s) mod 50 = 0.
Proof.
  destruct (main_loop demo_images demo_collided (left_frames 70) (main_init demo_images))
    as [[[s ms] hs]|] eqn:Hrun; [| by vm_compute in Hrun].
  destruct (score_is_multiple_of_50 _ _ _ _ _ _ Hrun) as (Hs & _).
  exists s, ms, hs. split; [reflexivity | exact Hs].
Defined.

(** ** [Bonus.__init__] and the fall of a bonus *)



Ltac spawn_needs_room IMAGES n d :=
  unfold Character_init;
  change ("bonus" ++ "/" ++ n)%string with ("bonus/" ++ n)%string;
  destruct (IMAGES ("bonus/" ++ n)%string) as [w h]; cbn [speed width height];
  match goal with |- context [randint 1 ?sp ?v] =>
    destruct (randint 1 sp v) as [yi|]; [| done] end;
  cbn [mbind option_bind];
  destruct (randint (w / 2) (SCREEN_WIDTH - w / 2) (draw_x_pos d)) as [xp|] eqn:Hxp;
    [| done];
  cbn [mbind option_bind];
  destruct (randint (- SCREEN_HEIGHT) (- h) (draw_y_pos d)) as [yp|] eqn:Hyp; [| done];
  apply randint_range in Hxp, Hyp; lia.

(** X15: [Bonus.__init__] fails on a name outside the catalog (the
    [KeyError] of [BONUSES[name]]), and for a name, given or drawn, whose
    image is too wide for the margins or higher than the screen (the
    [ValueError] of [random.randint] on an empty range), whatever the
    draws. *)
Theorem spawn_fails_outside_catalog_or_screen IMAGES x y d :
  (forall n, n <> ""%string ->
     BONUSES_get n = None \/
     (let '(w, h) := IMAGES ("bonus/" ++ n)%string in
      SCREEN_WIDTH - w / 2 < w / 2 \/ SCREEN_HEIGHT < h) ->
     Bonus_init IMAGES (Some n) x y d = None) /\
  ((let '(w, h) := IMAGES ("bonus/" ++ draw_name d)%string in
    SCREEN_WIDTH - w / 2 < w / 2 \/ SCREEN_HEIGHT < h) ->
   Bonus_init IMAGES None x y d = None).
Proof.
  split.
  - intros n Hn Hbad. unfold Bonus_init.
    destruct (String.eqb_spec n "") as [->|_]; [done |]. cbn [mbind option_bind].
    destruct (BONUSES_get n) as [info|] eqn:Hinfo; [| done]. cbn [mbind option_bind].
    destruct Hbad as [Hbad | Hbad]; [done |].
    spawn_needs_room IMAGES n d.
  - intros Hbad. unfold Bonus_init, choice.
    destruct (existsb (String.eqb (draw_name d)) BONUSES_keys); [| done].
    cbn [mbind option_bind].
    destruct (BONUSES_get (draw_name d)) as [info|] eqn:Hinfo; [| done].
    cbn [mbind option_bind].
    spawn_needs_room IMAGES (draw_name d) d.
Qed.

Lemma spawn_fails_outside_catalog_or_screen_witness :
  "anvil"%string <> ""%string /\ BONUSES_get "anvil" = None /\
  Bonus_init demo_images (Some "anvil"%string) 0 0 boot_draws = None /\
  SCREEN_WIDTH - 900 / 2 < 900 / 2 /\
  Bonus_init wide_images None 0 0 boot_draws = None.
Proof.
  destruct (spawn_fails_outside_catalog_or_screen demo_images 0 0 boot_draws) as (Hn & _).
  destruct (spawn_fails_outside_catalog_or_screen wide_images 0 0 boot_draws) as (_ & Hw).
  assert (Hne : "anvil"%string <> ""%string) by discriminate.
  assert (Hwide : SCREEN_WIDTH - 900 / 2 < 900 / 2) by reflexivity.
  split; [exact Hne |]. split; [reflexivity |].
  split; [exact (Hn "anvil"%string Hne (or_introl eq_refl)) |].
  split; [exact Hwide |]. exact (Hw (or_introl Hwide)).
Defined.

Lemma Bonus_updates_position (n : nat) (b : Bonus) :
  x_pos (Nat.iter n Bonus_update b) = x_pos b + Z.of_nat n * x_inc b /\
  y_pos (Nat.iter n Bonus_update b) = y_pos b + Z.of_nat n * y_inc b.
Proof.
  induction n as [|n [IHx IHy]]; [simpl; lia |].
  destruct (Bonus_updates_fixed n b) as (_ & Hy & _).
  assert (Hx : x_inc (Nat.iter n Bonus_update b) = x_inc b).
  { clear. induction n as [|n IH]; [done | exact IH]. }
  cbv zeta in Hy.
  change (Nat.iter (S n) Bonus_update b) with (Bonus_update (Nat.iter n Bonus_update b)).
  set (c := Nat.iter n Bonus_update b) in *.
  unfold Bonus_update, Character_update. cbn [b_char x_pos y_pos].
  rewrite IHx, IHy, Hx, Hy. lia.
Qed.

(** X16: a bonus made by [Bonus.__init__] keeps its horizontal position
    and has fallen [n] times its step after [n] updates; it is past the
    bottom edge exactly when that exceeds the way to
    [SCREEN_HEIGHT + height], which is so after more than
    [2 * SCREEN_HEIGHT + height] updates at the latest, and once past the
    edge it stays past it. *)
Theorem bonus_falls_until_missed IMAGES nm x y d (b : Bonus) (n : nat) :
  Bonus_init IMAGES nm x y d = Some b ->
  let bn := Nat.iter n Bonus_update b in
  x_pos bn = x_pos b /\
  y_pos bn = y_pos b + Z.of_nat n * y_inc b /\
  (is_missed bn = true <->
   SCREEN_HEIGHT + height b - y_pos b < Z.of_nat n * y_inc b) /\
  (2 * SCREEN_HEIGHT + height b < Z.of_nat n -> is_missed bn = true) /\
  (is_missed bn = true -> is_missed (Bonus_update bn) = true).
Proof.
  intros Hb bn.
  destruct (Bonus_init_Some _ _ _ _ _ _ Hb)
    as (info & _ & _ & _ & _ & _ & _ & _ & Hxi & Hyi & _ & Hy).
  destruct (Bonus_updates_position n b) as [Hxn Hyn].
  destruct (Bonus_updates_position (S n) b) as [_ Hyn'].
  destruct (Bonus_updates_fixed n b) as (_ & _ & _ & _ & _ & _ & Hh).
  destruct (Bonus_updates_fixed (S n) b) as (_ & _ & _ & _ & _ & _ & Hh').
  change (Nat.iter (S n) Bonus_update b) with (Bonus_update bn) in Hyn', Hh'.
  fold bn in Hxn, Hyn, Hh. cbv zeta in Hh, Hh'.
  assert (Hm : forall c : Bonus, is_missed c = true <-> SCREEN_HEIGHT + height c < y_pos c).
  { intros c. unfold is_missed.
    destruct (Z.gtb_spec (y_pos c) (SCREEN_HEIGHT + height c)); split; (done || lia). }
  rewrite !Hm, Hh, Hh', Hyn, Hyn', Hxn, Hxi.
  unfold SCREEN_HEIGHT in *. repeat split; try nia.
Qed.

Lemma bonus_falls_until_missed_witness :
  Bonus_init demo_images None 0 0 boot_draws = Some demo_bonus /\
  2 * SCREEN_HEIGHT + height demo_bonus < Z.of_nat 1241 /\
  is_missed (Nat.iter 1241 Bonus_update demo_bonus) = true.
Proof.
  assert (H : Bonus_init demo_images None 0 0 boot_draws = Some demo_bonus)
    by reflexivity.
  assert (Hn : 2 * SCREEN_HEIGHT + height demo_bonus < Z.of_nat 1241) by reflexivity.
  destruct (bonus_falls_until_missed _ _ _ _ _ _ 1241 H) as (_ & _ & _ & Hlate & _).
  exact (conj H (conj Hn (Hlate Hn))).
Defined.

(** ** [wait_for_keypress], [pause_game] and [end_game] *)

Lemma scan_events_spec py_key timer evs :
  scan_events py_key timer evs
  = if existsb (ends_wait py_key) evs then 0 else timer.
Proof.
  unfold scan_events. revert timer.
  induction evs as [|ev evs IH]; intros timer; [done |].
  cbn [foldl existsb]. rewrite IH.
  destruct (ends_wait py_key ev), (existsb (ends_wait py_key) evs); done.
Qed.

Lemma wait_step py_key timer evs rest :
  timer <> 0 ->
  wait_for_keypress py_key timer (evs :: rest)
  = S <$> wait_for_keypress py_key
            (if existsb (ends_wait py_key) evs then 0
             else if timer >? 0 then timer - 1 else timer) rest.
Proof.
  intros H. cbn [wait_for_keypress].
  destruct (Z.eqb_spec timer 0); [done |]. by rewrite scan_events_spec.
Qed.

Lemma wait_zero py_key ticks : wait_for_keypress py_key 0 ticks = Some 0%nat.
Proof. by destruct ticks. Qed.

(** X17: with a timer of [n] seconds and no key that counts, the wait
    returns after exactly [n] passes; with any non-negative timer it
    returns after [timer] passes at most, whatever comes in. *)
Theorem wait_ends_with_timer py_key (ticks : list (list Event)) :
  (forall n : nat,
     (n <= length ticks)%nat -> Forall (quiet py_key) (take n ticks) ->
     wait_for_keypress py_key (Z.of_nat n) ticks = Some n) /\
  (forall timer, 0 <= timer -> (Z.to_nat timer <= length ticks)%nat ->
     exists n, wait_for_keypress py_key timer ticks = Some n /\ Z.of_nat n <= timer).
Proof.
  split.
  - intros n. revert ticks. induction n as [|n IH]; intros ticks Hlen Hq.
    + apply wait_zero.
    + destruct ticks as [|evs rest]; [simpl in Hlen; lia |].
      cbn [take] in Hq. apply Forall_cons in Hq as [Hq Hrest].
      rewrite wait_step by lia. unfold quiet in Hq. rewrite Hq.
      destruct (Z.gtb_spec (Z.of_nat (S n)) 0); [| lia].
      replace (Z.of_nat (S n) - 1) with (Z.of_nat n) by lia.
      rewrite IH; [done | simpl in Hlen; lia | done].
  - intros timer Ht. remember (Z.to_nat timer) as m eqn:Hm.
    revert timer Ht Hm ticks. induction m as [|m IH]; intros timer Ht Hm ticks Hlen.
    + assert (timer = 0) as -> by lia. exists 0%nat. by rewrite wait_zero.
    + destruct ticks as [|evs rest]; [simpl in Hlen; lia |].
      rewrite wait_step by lia.
      destruct (existsb (ends_wait py_key) evs).
      * rewrite wait_zero. exists 1%nat. split; [done | lia].
      * destruct (Z.gtb_spec timer 0); [| lia].
        destruct (IH (timer - 1) ltac:(lia) ltac:(lia) rest ltac:(simpl in Hlen; lia))
          as (n & -> & Hn).
        exists (S n). split; [done | lia].
Qed.

Lemma wait_ends_with_timer_witness :
  (3 <= length [[KEYUP K_p]; []; [QUIT]; [KEYDOWN K_p]])%nat /\
  Forall (quiet AnyKey) (take 3 [[KEYUP K_p]; []; [QUIT]; [KEYDOWN K_p]]) /\
  wait_for_keypress AnyKey (Z.of_nat 3) [[KEYUP K_p]; []; [QUIT]; [KEYDOWN K_p]]
  = Some 3%nat.
Proof.
  assert (Hl : (3 <= length [[KEYUP K_p]; []; [QUIT]; [KEYDOWN K_p]])%nat)
    by (simpl; lia).
  assert (Hq : Forall (quiet AnyKey) (take 3 [[KEYUP K_p]; []; [QUIT]; [KEYDOWN K_p]]))
    by (repeat constructor).
  destruct (wait_ends_with_timer AnyKey [[KEYUP K_p]; []; [QUIT]; [KEYDOWN K_p]])
    as (Hexact & _).
  exact (conj Hl (conj Hq (Hexact 3%nat Hl Hq))).
Defined.

(** The wait on a negative timer, which never runs down. *)
Lemma wait_negative py_key timer ticks n :
  timer < 0 ->
  (wait_for_keypress py_key timer ticks = Some n <->
   exists before evs rest,
     ticks = before ++ evs :: rest /\ n = S (length before) /\
     Forall (quiet py_key) before /\ existsb (ends_wait py_key) evs = true).
Proof.
  intros Ht. revert n. induction ticks as [|evs rest IH]; intros n.
  - cbn [wait_for_keypress]. destruct (Z.eqb_spec timer 0); [lia |]. split; [done |].
    intros (before & evs & rest & H & _). by destruct before.
  - rewrite wait_step by lia.
    destruct (existsb (ends_wait py_key) evs) eqn:He.
    + rewrite wait_zero. cbn [fmap option_fmap option_map]. split.
      * intros [= <-]. exists [], evs, rest. by repeat split.
      * intros (before & evs' & rest' & H & -> & Hq & He').
        destruct before as [|b before]; [done |].
        injection H as <- ->. apply Forall_cons in Hq as [Hq _].
        unfold quiet in Hq. congruence.
    + destruct (Z.gtb_spec timer 0) as [Hgt|_]; [lia |]. split.
      * destruct (wait_for_keypress py_key timer rest) as [m|] eqn:Hw; [| done].
        intros [= <-].
        destruct (proj1 (IH m) eq_refl) as (before & evs' & rest' & -> & -> & Hq & He').
        exists (evs :: before), evs', rest'.
        split; [done |]. split; [done |]. split; [by constructor | done].
      * intros (before & evs' & rest' & H & -> & Hq & He').
        destruct before as [|b before]; [injection H as <- <-; congruence |].
        injection H as <- ->. apply Forall_cons in Hq as [_ Hq].
        assert (Hw : wait_for_keypress py_key timer (before ++ evs' :: rest')
                     = Some (S (length before)))
          by (apply IH; by exists before, evs', rest').
        by rewrite Hw.
Qed.

(** X18: with a negative timer the wait returns only on a key that
    counts: it returns after pass [n] exactly when the [n]-th batch of
    events is the first to hold such a key-down, and if none ever comes it
    is still waiting however long the input. *)
Theorem wait_forever_needs_key py_key timer (ticks : list (list Event)) :
  timer < 0 ->
  (forall n, wait_for_keypress py_key timer ticks = Some n <->
     exists before evs rest,
       ticks = before ++ evs :: rest /\ n = S (length before) /\
       Forall (quiet py_key) before /\ existsb (ends_wait py_key) evs = true) /\
  (Forall (quiet py_key) ticks -> wait_for_keypress py_key timer ticks = None).
Proof.
  intros Ht. split; [intros n; by apply wait_negative |].
  intros Hq. destruct (wait_for_keypress py_key timer ticks) as [n|] eqn:Hw; [| done].
  apply wait_negative in Hw as (before & evs & rest & -> & _ & _ & He); [| done].
  apply Forall_app in Hq as [_ Hq]. apply Forall_cons in Hq as [Hq _].
  unfold quiet in Hq. congruence.
Qed.

Lemma wait_forever_needs_key_witness :
  -1 < 0 /\
  wait_for_keypress (TheKey K_p) (-1) [[KEYDOWN K_LEFT]; [QUIT]; []] = None /\
  wait_for_keypress (TheKey K_p) (-1) [[KEYDOWN K_LEFT]; [KEYUP K_p; KEYDOWN K_p]; []]
  = Some 2%nat.
Proof.
  assert (Ht : -1 < 0) by reflexivity.
  destruct (wait_forever_needs_key (TheKey K_p) (-1) [[KEYDOWN K_LEFT]; [QUIT]; []] Ht)
    as (_ & Hnone).
  destruct (wait_forever_needs_key (TheKey K_p) (-1)
              [[KEYDOWN K_LEFT]; [KEYUP K_p; KEYDOWN K_p]; []] Ht) as (Hsome & _).
  split; [exact Ht |]. split.
  - apply Hnone. repeat constructor.
  - apply Hsome. exists [[KEYDOWN K_LEFT]], [KEYUP K_p; KEYDOWN K_p], [[]].
    split; [reflexivity |]. split; [reflexivity |]. split; [repeat constructor | reflexivity].
Defined.


Lemma ends_wait_pause_key evs :
  existsb (ends_wait (TheKey K_p)) evs = true <-> KEYDOWN K_p ∈ evs.
Proof.
  induction evs as [|ev evs IH]; [split; [done | by intros ?%elem_of_nil] |].
  cbn [existsb]. rewrite orb_true_iff, IH, elem_of_cons.
  assert (Hev : ends_wait (TheKey K_p) ev = true <-> KEYDOWN K_p = ev)
    by (destruct ev as [|[]|k|]; split; (done || discriminate)).
  by rewrite Hev.
Qed.

Lemma ends_wait_any_key evs :
  existsb (ends_wait AnyKey) evs = true <-> exists k, KEYDOWN k ∈ evs.
Proof.
  induction evs as [|ev evs IH].
  - split; [done | intros [k Hk]; by apply elem_of_nil in Hk].
  - cbn [existsb]. rewrite orb_true_iff, IH. split.
    + intros [Hev | [k Hk]].
      * destruct ev as [|k|k|]; try done. exists k. apply list_elem_of_here.
      * exists k. by apply list_elem_of_further.
    + intros [k Hk]. apply elem_of_cons in Hk as [<- | Hk]; [by left | right; by exists k].
Qed.

Lemma quiet_iff py_key evs :
  quiet py_key evs <-> ~ (existsb (ends_wait py_key) evs = true).
Proof. unfold quiet. by destruct (existsb _ _). Qed.

(** X19: a pause lasts until the first batch of events that holds a
    key-down of the pause key, and at least one pass: no other key, and no
    QUIT, ends it. *)
Theorem pause_ends_on_pause_key {Asset} (load : string -> option Asset)
    (sounds : AssetStore Asset) (ticks : list (list Event)) (n : nat) :
  (pause_game load sounds ticks).2 = Some n <->
  exists before evs rest,
    ticks = before ++ evs :: rest /\ n = S (length before) /\
    Forall (fun b => KEYDOWN K_p ∉ b) before /\ KEYDOWN K_p ∈ evs.
Proof.
  unfold pause_game, show_text. cbn [snd].
  rewrite wait_negative by done.
  split; intros (before & evs & rest & H1 & H2 & Hq & He);
    exists before, evs, rest; (split; [done |]); (split; [done |]); split.
  - eapply Forall_impl; [exact Hq |]. intros b Hb.
    apply quiet_iff in Hb. by rewrite ends_wait_pause_key in Hb.
  - by apply ends_wait_pause_key.
  - eapply Forall_impl; [exact Hq |]. intros b Hb.
    apply quiet_iff. by rewrite ends_wait_pause_key.
  - by apply ends_wait_pause_key.
Qed.

(** X20: the wait of [end_game] lasts until the first batch of events
    that holds a key-down of any key, and at least one pass; events of
    other kinds do not end it. *)
Theorem end_game_waits_for_any_key (ticks : list (list Event)) (n : nat) :
  end_game ticks = Some n <->
  exists before evs rest,
    ticks = before ++ evs :: rest /\ n = S (length before) /\
    Forall (fun b => forall k, KEYDOWN k ∉ b) before /\ exists k, KEYDOWN k ∈ evs.
Proof.
  unfold end_game, show_text. cbn [snd].
  rewrite wait_negative by done.
  split; intros (before & evs & rest & H1 & H2 & Hq & He);
    exists before, evs, rest; (split; [done |]); (split; [done |]); split.
  - eapply Forall_impl; [exact Hq |]. intros b Hb k Hk.
    apply quiet_iff in Hb. apply Hb, ends_wait_any_key. by exists k.
  - by apply ends_wait_any_key.
  - eapply Forall_impl; [exact Hq |]. intros b Hb.
    apply quiet_iff. rewrite ends_wait_any_key. intros [k Hk]. by apply (Hb k).
  - by apply ends_wait_any_key.
Qed.

(** ** [ImageStore] and [SoundStore] *)

Section StoreProperties.

Context {Asset : Type}.

(** X21: an image [ImageStore.get] has returned is returned again for the
    same name without loading, whatever the files have become, and the
    store stays as it is; the other names' entries, the path and the
    extension are never touched by a [get]. *)
Theorem get_caches_the_image (load load' : string -> option Asset)
    (nm : string) (st st' : AssetStore Asset) (image : Asset) :
  ImageStore_get load nm st = (Some image, st') ->
  ImageStore_get load' nm st' = (Some image, st') /\
  _path st' = _path st /\ _ext st' = _ext st /\
  forall k, k <> nm -> _store st' !! k = _store st !! k.
Proof.
  unfold ImageStore_get, Store_add.
  destruct (_store st !! nm) as [img0|] eqn:Hnm.
  - intros [= -> <-]. rewrite Hnm. by repeat split.
  - destruct (load _) as [obj|]; [| done]. intros [= -> <-]. cbn [_store _path _ext].
    rewrite lookup_insert_eq. repeat split; try done.
    intros k Hk. by rewrite lookup_insert_ne.
Qed.


Lemma preload_lookup (load : string -> option Asset) names :
  forall st st', preload load names st = Some st' ->
    _path st' = _path st /\ _ext st' = _ext st /\
    (forall k, k ∈ names ->
       exists obj, _store st' !! k = Some obj /\
                   load (path_join (_path st) (k ++ "." ++ _ext st)%string) = Some obj) /\
    (forall k, k ∉ names -> _store st' !! k = _store st !! k).
Proof.
  induction names as [|nm rest IH]; intros st st' H.
  - injection H as <-. split; [done |]. split; [done |].
    split; [intros k Hk; by apply elem_of_nil in Hk | done].
  - cbn [preload] in H. unfold Store_add in H.
    destruct (load (path_join (_path st) (nm ++ "." ++ _ext st)%string)) as [obj|] eqn:Hl;
      [| done].
    apply IH in H as (Hp & He & Hin & Hout). cbn [_path _ext _store] in *.
    split; [done |]. split; [done |]. split.
    + intros k Hk. destruct (decide (k ∈ rest)) as [Hr|Hr]; [by apply Hin |].
      apply elem_of_cons in Hk as [-> | Hk]; [| done].
      exists obj. split; [| done]. rewrite (Hout nm Hr). apply lookup_insert_eq.
    + intros k Hk. apply not_elem_of_cons in Hk as [Hne Hk].
      rewrite (Hout k Hk). by apply lookup_insert_ne.
Qed.

(** X23: once the preload loop of [main] has gone through [SOUND_FILES],
    playing any of those names finds the sound loaded for its file: it
    does not load, cannot fail and leaves the store as it is.  The sounds
    the game plays (the miss sound, the pause sound and every catalog
    entry's sound) are all among them. *)
Theorem preloaded_sounds_play_from_store (load load' : string -> option Asset)
    (st st' : AssetStore Asset) :
  preload load SOUND_FILES st = Some st' ->
  (forall nm, nm ∈ SOUND_FILES ->
     exists snd, SoundStore_play load' nm st' = (Some snd, st') /\
                 load (path_join (_path st) (nm ++ "." ++ _ext st)%string) = Some snd) /\
  ("break_block-mod"%string ∈ SOUND_FILES /\ "pause"%string ∈ SOUND_FILES /\
   forall k info, BONUSES_get k = Some info -> info_sound info ∈ SOUND_FILES).
Proof.
  intros H. split.
  - intros nm Hnm.
    destruct (preload_lookup _ _ _ _ H) as (_ & _ & Hin & _).
    destruct (Hin nm Hnm) as (snd & Hs & Hl).
    exists snd. split; [| done]. unfold SoundStore_play. rewrite Hs. cbv zeta.
    by rewrite Hs.
  - split; [| split].
    + unfold SOUND_FILES. set_solver.
    + unfold SOUND_FILES. set_solver.
    + intros k info Hk. apply catalog_lookup_elem in Hk.
      assert (Hall : Forall (fun e : string * BonusInfo => info_sound e.2 ∈ SOUND_FILES)
                       BONUSES)
        by (repeat constructor; unfold SOUND_FILES; simpl; set_solver).
      rewrite Forall_forall in Hall. apply (Hall _ Hk).
Qed.

End StoreProperties.

Ltac refute_elem :=
  let H := fresh "Hin" in
  intros H;
  repeat (apply elem_of_cons in H as [H|H]; [discriminate H |]);
  by apply elem_of_nil in H.

Lemma pause_ends_on_pause_key_witness :
  (pause_game demo_load demo_sounds
     [[KEYDOWN K_LEFT; QUIT]; [KEYDOWN K_ESCAPE]; [KEYUP K_p; KEYDOWN K_p]; []]).2
  = Some 3%nat.
Proof.
  apply (proj2 (pause_ends_on_pause_key demo_load demo_sounds
                  [[KEYDOWN K_LEFT; QUIT]; [KEYDOWN K_ESCAPE]; [KEYUP K_p; KEYDOWN K_p]; []]
                  3%nat)).
  exists [[KEYDOWN K_LEFT; QUIT]; [KEYDOWN K_ESCAPE]], [KEYUP K_p; KEYDOWN K_p], [[]].
  split; [reflexivity |]. split; [reflexivity |]. split.
  - repeat constructor; refute_elem.
  - apply list_elem_of_further, list_elem_of_here.
Defined.

Lemma end_game_waits_for_any_key_witness :
  end_game [[QUIT; KEYUP K_LEFT]; []; [KEYDOWN K_other]] = Some 3%nat.
Proof.
  apply (proj2 (end_game_waits_for_any_key [[QUIT; KEYUP K_LEFT]; []; [KEYDOWN K_other]]
                  3%nat)).
  exists [[QUIT; KEYUP K_LEFT]; []], [KEYDOWN K_other], [].
  split; [reflexivity |]. split; [reflexivity |]. split.
  - repeat constructor; intros k; refute_elem.
  - exists K_other. apply list_elem_of_here.
Defined.

Lemma get_caches_the_image_witness :
  let first := ImageStore_get demo_load "bonus/box" (Store_init "images" "png") in
  first.1 = Some 20%nat /\
  ImageStore_get no_load "bonus/box" first.2 = (Some 20%nat, first.2).
Proof.
  cbv zeta.
  assert (H : ImageStore_get demo_load "bonus/box" (Store_init "images" "png")
              = (Some 20%nat,
                 (ImageStore_get demo_load "bonus/box" (Store_init "images" "png")).2))
    by reflexivity.
  destruct (get_caches_the_image demo_load no_load _ _ _ _ H) as (Hagain & _).
  split; [reflexivity | exact Hagain].
Defined.


Lemma preloaded_sounds_play_from_store_witness :
  exists st' snd,
    preload demo_load SOUND_FILES demo_sounds = Some st' /\
    SoundStore_play no_load "coin" st' = (Some snd, st').
Proof.
  destruct (preload demo_load SOUND_FILES demo_sounds) as [st'|] eqn:Hpre;
    [| by vm_compute in Hpre].
  destruct (preloaded_sounds_play_from_store demo_load no_load _ _ Hpre) as (Hplay & _).
  destruct (Hplay "coin"%string) as (snd & Hs & _); [apply list_elem_of_here |].
  exists st', snd. split; [reflexivity | exact Hs].
Defined.


(** ** More on the loop of [main] *)

Section LoopEnds.

Variable IMAGES : string -> Z * Z.
Variable collided : Player -> Bonus -> bool.

(** X24: a frame whose events hold a QUIT or an escape key-down sets
    [game_over] and still runs the miss pass, the update and the hit pass;
    it leaves the player's emote as it was unless the miss counter has
    reached the allowance. *)
Theorem quit_frame_completes inp s r :
  frame IMAGES collided inp s = Some r ->
  existsb is_quit (events inp) = true ->
  let p := s_player s in
  let p' := s_player (f_session r) in
  s_game_over (f_session r) = true /\
  score p' = score p - sum_points (f_missed r) + sum_points (f_hits r) /\
  misses p' = misses p + Z.of_nat (length (f_missed r)) /\
  (misses p' < misses_allowed (score p) -> emote p' = emote p).
Proof.
  intros H Hq. cbv zeta.
  destruct (frame_effect _ _ _ _ _ H) as (Hs & Hm & Hov & _).
  assert (Hquit : (get_input (events inp) (s_player s)).2 = existsb is_quit (events inp))
    by (unfold get_input; by rewrite handle_events_quit).
  rewrite Hquit, Hq in Hov.
  split; [exact Hov |]. split; [exact Hs |]. split; [exact Hm |].
  intros Hlt.
  destruct (frame_Some _ _ _ _ _ H) as (bs1 & p1 & _ & _ & Hmiss & _ & _ & Hhit & _).
  destruct (get_input_stats (events inp) (s_player s)) as (Hs0 & _ & _ & He0 & _).
  set (p0 := (get_input (events inp) (s_player s)).1) in *.
  set (quit := (get_input (events inp) (s_player s)).2) in *.
  destruct (miss_pass_effect _ _ _ Hmiss) as (_ & _ & _ & He1 & _).
  destruct (loss_check_keeps (misses_allowed (score p0)) p1 quit) as (_ & _ & _ & _ & He2).
  destruct (loss_check_spec (misses_allowed (score p0)) p1 quit) as (_ & (_ & Hm2 & _) & _).
  set (p2 := (loss_check (misses_allowed (score p0)) (p1, quit)).1) in *.
  destruct (hit_pass_effect _ _ _ Hhit) as (_ & Hm4 & _ & He4 & _).
  destruct (Player_update_stats p2) as (_ & Hm3 & _ & He3 & _).
  destruct He2 as [(He2 & _) | (_ & _ & Hge)]; [congruence |].
  rewrite Hs0 in Hge. lia.
Qed.

(** X25: from the start of [main], as long as the draws offered to each
    frame are ones [Bonus.__init__] can make, the loop runs through its
    inputs: no lookup in the tally dict or the catalog raises, and the
    state it reaches again has a tally for every catalog name and only
    catalog bonuses in the group. *)
Theorem loop_runs_without_raising inputs :
  Forall (fun inp => is_Some (Bonus_init IMAGES None 0 0 (draws inp))) inputs ->
  exists s ms hs,
    main_loop IMAGES collided inputs (main_init IMAGES) = Some (s, ms, hs) /\
    tallies_cover (s_player s) /\ Forall catalog_ok (s_bonuses s).
Proof.
  intros Hd.
  destruct (main_loop_total IMAGES collided inputs _ (main_init_inv IMAGES) Hd)
    as [[[s ms] hs] H].
  destruct (main_loop_inv _ _ _ _ _ _ _ (main_init_inv IMAGES) H) as ((_ & Hc & Hok) & _).
  by exists s, ms, hs.
Qed.

End LoopEnds.

Lemma loop_runs_without_raising_witness :
  Forall (fun inp => is_Some (Bonus_init demo_images None 0 0 (draws inp)))
         (idle_frames 50) /\
  exists s ms hs,
    main_loop demo_images demo_collided (idle_frames 50) (main_init demo_images)
    = Some (s, ms, hs).
Proof.
  assert (Hd : Forall (fun inp => is_Some (Bonus_init demo_images None 0 0 (draws inp)))
                 (idle_frames 50)).
  { unfold idle_frames. apply Forall_forall. intros x Hx.
    apply list_elem_of_In, repeat_spec in Hx. subst x. by exists demo_bonus. }
  split; [exact Hd |].
  destruct (loop_runs_without_raising demo_images demo_collided _ Hd)
    as (s & ms & hs & H & _).
  by exists s, ms, hs.
Defined.

(** X26: the cap on the group is positive exactly from a score of -2000
    up, so below -2000 the spawner can add nothing; it is at its ceiling
    [OBJECTS_MAX] exactly from a score of 12000 up, and it is 10 for the
    scores 0 to 1999. *)
Theorem objects_max_thresholds (sc : Z) :
  (0 < objects_max sc <-> -2000 <= sc) /\
  (objects_max sc = OBJECTS_MAX <-> 12000 <= sc) /\
  (0 <= sc < 2000 -> objects_max sc = 10) /\
  (sc < -2000 -> forall IMAGES d bs, spawn IMAGES (objects_max sc) d bs = Some bs).
Proof.
  assert (Hlow : sc < -2000 -> objects_max sc <= 0) by (intros H; floor_arith).
  repeat split.
  - intros H. floor_arith.
  - intros H. floor_arith.
  - intros H. floor_arith.
  - intros H. floor_arith.
  - intros H. floor_arith.
  - intros H IMAGES d bs. unfold spawn. specialize (Hlow H).
    destruct (Z.ltb_spec (Z.of_nat (length bs)) (objects_max sc)); [lia | done].
Qed.

Lemma objects_max_thresholds_witness :
  -2001 < -2000 /\ spawn demo_images (objects_max (-2001)) boot_draws [] = Some [] /\
  (0 <= 1999 < 2000) /\ objects_max 1999 = 10.
Proof.
  assert (H1 : -2001 < -2000) by reflexivity.
  assert (H2 : 0 <= 1999 < 2000) by (split; [discriminate | reflexivity]).
  destruct (objects_max_thresholds (-2001)) as (_ & _ & _ & Hsp).
  destruct (objects_max_thresholds 1999) as (_ & _ & H10 & _).
  exact (conj H1 (conj (Hsp H1 demo_images boot_draws []) (conj H2 (H10 H2)))).
Defined.

Lemma quit_frame_completes_witness :
  exists r,
    frame demo_images demo_collided {| events := [KEYDOWN K_LEFT; QUIT]; draws := boot_draws |}
      (main_init demo_images) = Some r /\
    s_game_over (f_session r) = true /\
    (misses (s_player (f_session r)) < misses_allowed 0 ->
     emote (s_player (f_session r)) = emote_none).
Proof.
  destruct (frame demo_images demo_collided
              {| events := [KEYDOWN K_LEFT; QUIT]; draws := boot_draws |}
              (main_init demo_images)) as [r|] eqn:Hf; [| by vm_compute in Hf].
  destruct (quit_frame_completes _ _ _ _ _ Hf eq_refl) as (Hover & _ & _ & He).
  exists r. split; [reflexivity | split; [exact Hover | exact He]].
Defined.

(** ** The passes and the order of the group *)

Lemma List_filter_partition {A} (f : A -> bool) (l : list A) :
  l ≡ₚ List.filter f l ++ List.filter (fun x => negb (f x)) l.
Proof.
  induction l as [|x l IH]; [done |]. simpl. destruct (f x); simpl.
  - by constructor.
  - rewrite <- Permutation_middle. by constructor.
Qed.

Lemma sum_points_perm bs bs' : bs ≡ₚ bs' -> sum_points bs = sum_points bs'.
Proof.
  induction 1 as [|x l l' _ IH|x y l|l l' l'' _ IH1 _ IH2]; simpl; lia.
Qed.

Lemma count_name_perm k bs bs' : bs ≡ₚ bs' -> count_name k bs = count_name k bs'.
Proof.
  induction 1 as [|x l l' _ IH|x y l|l l' l'' _ IH1 _ IH2];
    rewrite ?count_name_cons; lia.
Qed.

Lemma Player_eq (p q : Player) :
  p_char p = p_char q -> direction p = direction q -> emote p = emote q ->
  y_orig p = y_orig q -> score p = score q -> bump_count p = bump_count q ->
  misses p = misses q -> (forall k, bonuses p !! k = bonuses q !! k) -> p = q.
Proof.
  destruct p, q. simpl. intros -> -> -> -> -> -> -> H. f_equal. by apply map_eq.
Qed.

(** X27: the miss pass and the hit pass do not depend on the order in
    which the group yields its bonuses: over a rearranged list each pass
    completes when it did before and leaves the very same player. *)
Theorem passes_ignore_order (bs bs' : list Bonus) (p : Player) :
  bs ≡ₚ bs' ->
  miss_pass bs' p = miss_pass bs p /\ hit_pass bs' p = hit_pass bs p.
Proof.
  intros Hperm.
  assert (Hall : forall q : Player,
            Forall (fun b : Bonus => is_Some (bonuses q !! name b)) bs <->
            Forall (fun b : Bonus => is_Some (bonuses q !! name b)) bs')
    by (intros q; by rewrite Hperm).
  split.
  - destruct (miss_pass bs p) as [p1|] eqn:H1.
    + destruct (miss_pass_total bs' p) as [p2 H2];
        [apply Hall; by eapply miss_pass_lookup |].
      rewrite H2. f_equal.
      destruct (miss_pass_effect _ _ _ H1) as (? & ? & ? & ? & ? & ? & ? & Hk1).
      destruct (miss_pass_effect _ _ _ H2) as (? & ? & ? & ? & ? & ? & ? & Hk2).
      apply Player_eq; try congruence.
      * rewrite (sum_points_perm _ _ Hperm) in *. congruence.
      * rewrite (Permutation_length Hperm) in *. congruence.
      * intros k. by rewrite Hk1, Hk2, (count_name_perm k _ _ Hperm).
    + destruct (miss_pass bs' p) as [p2|] eqn:H2; [| done].
      destruct (miss_pass_total bs p) as [p1 H1'];
        [apply Hall; by eapply miss_pass_lookup | congruence].
  - destruct (hit_pass bs p) as [p1|] eqn:H1.
    + destruct (hit_pass_total bs' p) as [p2 H2];
        [apply Hall; by eapply hit_pass_lookup |].
      rewrite H2. f_equal.
      destruct (hit_pass_effect _ _ _ H1) as (? & ? & ? & ? & ? & ? & ? & Hk1).
      destruct (hit_pass_effect _ _ _ H2) as (? & ? & ? & ? & ? & ? & ? & Hk2).
      apply Player_eq; try congruence.
      * rewrite (sum_points_perm _ _ Hperm) in *. congruence.
      * intros k. by rewrite Hk1, Hk2, (count_name_perm k _ _ Hperm).
    + destruct (hit_pass bs' p) as [p2|] eqn:H2; [| done].
      destruct (hit_pass_total bs p) as [p1 H1'];
        [apply Hall; by eapply hit_pass_lookup | congruence].
Qed.

Lemma passes_ignore_order_witness :
  [brink_missed; brink_caught] ≡ₚ [brink_caught; brink_missed] /\
  miss_pass [brink_caught; brink_missed] (s_player brink_session)
  = miss_pass [brink_missed; brink_caught] (s_player brink_session).
Proof.
  assert (H : [brink_missed; brink_caught] ≡ₚ [brink_caught; brink_missed])
    by apply perm_swap.
  destruct (passes_ignore_order _ _ (s_player brink_session) H) as (Hm & _).
  exact (conj H Hm).
Defined.

Section Partition.

Variable IMAGES : string -> Z * Z.
Variable collided : Player -> Bonus -> bool.

(** X28: a frame splits the group, with the bonus the spawner may have
    added, in two: the bonuses past the bottom edge, which are the frame's
    misses and are not updated, and the others, which are each updated
    once and are then the frame's catches and the group it leaves. *)
Theorem frame_partitions_group inp s r :
  frame IMAGES collided inp s = Some r ->
  exists bs1 kept,
    spawn IMAGES (objects_max (score (s_player s))) (draws inp) (s_bonuses s) = Some bs1 /\
    bs1 ≡ₚ f_missed r ++ kept /\
    Forall (fun b => is_missed b = true) (f_missed r) /\
    Forall (fun b => is_missed b = false) kept /\
    map Bonus_update kept ≡ₚ f_hits r ++ s_bonuses (f_session r).
Proof.
  intros H.
  destruct (frame_Some _ _ _ _ _ H) as (bs1 & p1 & Hsp & Hmissed & _ & Hhits & Hrest & _).
  destruct (get_input_stats (events inp) (s_player s)) as (Hs0 & _).
  rewrite Hs0 in Hsp.
  exists bs1, (List.filter (fun b => negb (is_missed b)) bs1).
  split; [exact Hsp |]. rewrite Hmissed, Hhits, Hrest.
  split; [apply List_filter_partition |].
  split; [apply Forall_List_filter_true |].
  split; [| apply List_filter_partition].
  eapply Forall_impl;
    [apply (Forall_List_filter_true (fun b : Bonus => negb (is_missed b))) |].
  intros b Hb. by apply negb_true_iff.
Qed.

End Partition.

Lemma frame_partitions_group_witness :
  exists r bs1 kept,
    frame demo_images demo_collided idle_input brink_session = Some r /\
    bs1 ≡ₚ f_missed r ++ kept /\
    map Bonus_update kept ≡ₚ f_hits r ++ s_bonuses (f_session r).
Proof.
  destruct (frame demo_images demo_collided idle_input brink_session)
    as [r|] eqn:Hf; [| by vm_compute in Hf].
  destruct (frame_partitions_group _ _ _ _ _ Hf) as (bs1 & kept & _ & H1 & _ & _ & H2).
  exists r, bs1, kept. split; [reflexivity | split; [exact H1 | exact H2]].
Defined.
